(** * check_bib_usage: bibliography keys against a document tree

    A shallow embedding of [scripts/check_bib_usage.py] and the properties
    of its entry extraction, file discovery, usage scan and report.

    Text is a sequence of characters.  Characters are code points below
    256 ([ascii]); the character classes of Python's [str] and [re]
    ([\s], [\w], [str.lower], line boundaries) are written out for that
    range.  A file is what the script can observe of it: the string of its
    path, whether it resolves to the bibliography, and its decoded content
    (absent when reading raises). *)

From Stdlib Require Import Ascii String List ZArith Lia Bool Arith.
From Stdlib Require Import Permutation DecimalString.
Import ListNotations.

Local Open Scope list_scope.
Local Open Scope bool_scope.

(* ================================================================== *)
(** ** Text *)
(* ================================================================== *)

Definition text := list ascii.

(** A literal of the source, as text. *)
Definition str (s : string) : text := list_ascii_of_string s.

Definition code (c : ascii) : N := N_of_ascii c.

Definition nl : ascii := "010"%char.
Definition cr : ascii := "013"%char.
Definition dquote : ascii := "034"%char.
Definition squote : ascii := "039"%char.
Definition bslash : ascii := "092"%char.

Definition between (lo hi : N) (n : N) : bool := (lo <=? n)%N && (n <=? hi)%N.

(** [str.isspace] on one character, also the class [\s] of [re]. *)
Definition is_space (c : ascii) : bool :=
  let n := code c in
  between 9 13 n || between 28 32 n || (n =? 133)%N || (n =? 160)%N.

(** The line boundaries of [str.splitlines]. *)
Definition is_linebreak (c : ascii) : bool :=
  let n := code c in
  between 10 13 n || between 28 30 n || (n =? 133)%N.

(** The class [\w] of [re] on [str] patterns: alphanumeric or underscore. *)
Definition is_word (c : ascii) : bool :=
  let n := code c in
  between 48 57 n || between 65 90 n || between 97 122 n || (n =? 95)%N
  || (n =? 170)%N || between 178 179 n || (n =? 181)%N || between 185 186 n
  || between 188 190 n || between 192 214 n || between 216 246 n
  || between 248 255 n.

(** [str.lower] on one character. *)
Definition lower_char (c : ascii) : ascii :=
  let n := code c in
  if between 65 90 n || between 192 214 n || between 216 222 n
  then ascii_of_N (n + 32) else c.

Definition lower (s : text) : text := map lower_char s.

Fixpoint text_eqb (a b : text) : bool :=
  match a, b with
  | [], [] => true
  | x :: a', y :: b' => Ascii.eqb x y && text_eqb a' b'
  | _, _ => false
  end.

Fixpoint lstrip (s : text) : text :=
  match s with
  | c :: s' => if is_space c then lstrip s' else s
  | [] => []
  end.

Definition rstrip (s : text) : text := rev (lstrip (rev s)).

(** [str.strip()] *)
Definition strip (s : text) : text := rstrip (lstrip s).

(** [str.split(sep)] for a one-character separator: never empty. *)
Fixpoint split (sep : ascii) (s : text) : list text :=
  match s with
  | [] => [[]]
  | c :: s' =>
      if Ascii.eqb c sep then [] :: split sep s'
      else match split sep s' with
           | l :: ls => (c :: l) :: ls
           | [] => [[c]]
           end
  end.

(** [str.splitlines()]: a carriage return followed by a line feed is one
    boundary, and a final boundary opens no further line. *)
Fixpoint splitlines (s : text) : list text :=
  match s with
  | [] => []
  | c :: s' =>
      if is_linebreak c then
        match s' with
        | c' :: s'' =>
            if Ascii.eqb c cr && Ascii.eqb c' nl
            then [] :: splitlines s''
            else [] :: splitlines s'
        | [] => [[]]
        end
      else match splitlines s' with
           | l :: ls => (c :: l) :: ls
           | [] => [[c]]
           end
  end.

(** [str.startswith] *)
Fixpoint startswith (p s : text) : bool :=
  match p, s with
  | [], _ => true
  | x :: p', y :: s' => Ascii.eqb x y && startswith p' s'
  | _ :: _, [] => false
  end.

(** [sep.join(parts)] *)
Fixpoint join (sep : text) (parts : list text) : text :=
  match parts with
  | [] => []
  | [p] => p
  | p :: ps => p ++ sep ++ join sep ps
  end.

(** Decimal rendering of a count or a line number. *)
Definition show_nat (n : nat) : text :=
  str (NilEmpty.string_of_uint (Nat.to_uint n)).

(* ================================================================== *)
(** ** Regular expressions, as [re] matches them *)
(* ================================================================== *)

(** The patterns of the script use literals, character classes,
    sequence, ordered alternation, greedy and lazy repetition of a single
    character class, capture groups, one positive lookahead and the end
    anchor.  Matching is by backtracking in the order [re] tries the
    alternatives, so the match found is the one [re] returns. *)

Inductive cls :=
| CSpace                       (* \s *)
| CWord                        (* \w *)
| CAny                         (* .  under DOTALL *)
| COneOf (l : list ascii)      (* [...] *)
| CNoneOf (l : list ascii).    (* [^...] *)

Definition mem_ascii (a : ascii) (l : list ascii) : bool :=
  existsb (Ascii.eqb a) l.

Definition cls_match (c : cls) (a : ascii) : bool :=
  match c with
  | CSpace => is_space a
  | CWord => is_word a
  | CAny => true
  | COneOf l => mem_ascii a l
  | CNoneOf l => negb (mem_ascii a l)
  end.

Inductive regex :=
| Eps
| Lit (a : ascii)
| Cls (c : cls)
| Seq (r1 r2 : regex)
| Alt (r1 r2 : regex)
| Star (greedy : bool) (c : cls)
| Group (n : nat) (r : regex)
| Look (r : regex)             (* (?=r) *)
| EndZ.                        (* \Z *)

Definition Plus (greedy : bool) (c : cls) : regex := Seq (Cls c) (Star greedy c).
Definition Opt (r : regex) : regex := Alt r Eps.

Fixpoint seq_list (l : list regex) : regex :=
  match l with
  | [] => Eps
  | [r] => r
  | r :: l' => Seq r (seq_list l')
  end.

Definition lits (s : string) : regex := seq_list (map Lit (str s)).

(** A literal under IGNORECASE compares lowered characters. *)
Definition lit_match (ic : bool) (a c : ascii) : bool :=
  if ic then Ascii.eqb (lower_char a) (lower_char c) else Ascii.eqb a c.

Definition caps := list (nat * text).

Fixpoint group (n : nat) (g : caps) : option text :=
  match g with
  | [] => None
  | (i, t) :: g' => if Nat.eqb i n then Some t else group n g'
  end.

(** The text consumed between [s] and its suffix [s']. *)
Definition consumed (s s' : text) : text := firstn (length s - length s') s.

Section Star.
Context {A : Type} (p : ascii -> bool).

Fixpoint star_greedy (s : text) (k : text -> option A) : option A :=
  match s with
  | c :: s' =>
      if p c then
        match star_greedy s' k with
        | Some x => Some x
        | None => k s
        end
      else k s
  | [] => k s
  end.

Fixpoint star_lazy (s : text) (k : text -> option A) : option A :=
  match k s with
  | Some x => Some x
  | None =>
      match s with
      | c :: s' => if p c then star_lazy s' k else None
      | [] => None
      end
  end.
End Star.

Definition cont := text -> caps -> option (text * caps).

Fixpoint rmatch (ic : bool) (r : regex) (s : text) (g : caps) (k : cont)
  : option (text * caps) :=
  match r with
  | Eps => k s g
  | Lit a =>
      match s with
      | c :: s' => if lit_match ic a c then k s' g else None
      | [] => None
      end
  | Cls cl =>
      match s with
      | c :: s' => if cls_match cl c then k s' g else None
      | [] => None
      end
  | Seq r1 r2 => rmatch ic r1 s g (fun s' g' => rmatch ic r2 s' g' k)
  | Alt r1 r2 =>
      match rmatch ic r1 s g k with
      | Some x => Some x
      | None => rmatch ic r2 s g k
      end
  | Star true cl => star_greedy (cls_match cl) s (fun s' => k s' g)
  | Star false cl => star_lazy (cls_match cl) s (fun s' => k s' g)
  | Group n r => rmatch ic r s g (fun s' g' => k s' ((n, consumed s s') :: g'))
  | Look r =>
      match rmatch ic r s g (fun s' g' => Some (s', g')) with
      | Some (_, g') => k s g'
      | None => None
      end
  | EndZ => match s with [] => k s g | _ :: _ => None end
  end.

(** A match of [r] that starts at the head of [s]: what is left of [s]
    after it, and the groups. *)
Definition match_at (ic : bool) (r : regex) (s : text) : option (text * caps) :=
  rmatch ic r s [] (fun s' g => Some (s', g)).

Record found := Found {
  f_pre : text;       (* the text before the match *)
  f_whole : text;     (* group 0 *)
  f_groups : caps;
  f_rest : text       (* the text after the match *)
}.

Definition push_pre (c : ascii) (f : found) : found :=
  Found (c :: f_pre f) (f_whole f) (f_groups f) (f_rest f).

(** [re.search]: the first position where a match starts. *)
Fixpoint re_search (ic : bool) (r : regex) (s : text) : option found :=
  match match_at ic r s with
  | Some (rest, g) => Some (Found [] (consumed s rest) g rest)
  | None =>
      match s with
      | [] => None
      | c :: s' => option_map (push_pre c) (re_search ic r s')
      end
  end.

(** [re.finditer]: the positions are tried from left to right, and a
    position inside the previous match is skipped ([skip] counts how many
    remain).  After an empty match the scan moves on by one character. *)
Fixpoint finditer_skip (ic : bool) (r : regex) (s : text) (skip : nat)
  : list (text * caps) :=
  match skip with
  | S n =>
      match s with
      | [] => []
      | _ :: s' => finditer_skip ic r s' n
      end
  | O =>
      match match_at ic r s with
      | Some (rest, g) =>
          let w := consumed s rest in
          (w, g) ::
          match s with
          | [] => []
          | _ :: s' => finditer_skip ic r s' (length w - 1)
          end
      | None =>
          match s with
          | [] => []
          | _ :: s' => finditer_skip ic r s' 0
          end
      end
  end.

Definition finditer (ic : bool) (r : regex) (s : text) : list (text * caps) :=
  finditer_skip ic r s 0.

(** [m.group(n)]; a group that took no part in the match reads as empty
    here (every group of the script's patterns takes part). *)
Definition group_text (n : nat) (m : text * caps) : text :=
  match group n (snd m) with
  | Some t => t
  | None => []
  end.

(** [re.findall] for a pattern with one group: the list of its group 1. *)
Definition findall1 (ic : bool) (r : regex) (s : text) : list text :=
  map (group_text 1) (finditer ic r s).

(** [re.sub(r, repl, s)] for a literal replacement. *)
Fixpoint sub_skip (ic : bool) (r : regex) (repl : text) (s : text) (skip : nat)
  : text :=
  match skip with
  | S n =>
      match s with
      | [] => []
      | _ :: s' => sub_skip ic r repl s' n
      end
  | O =>
      match match_at ic r s with
      | Some (rest, _) =>
          match consumed s rest, s with
          | [], c :: s' => repl ++ c :: sub_skip ic r repl s' 0
          | [], [] => repl
          | w, c :: s' => repl ++ sub_skip ic r repl s' (length w - 1)
          | _, [] => repl
          end
      | None =>
          match s with
          | [] => []
          | c :: s' => c :: sub_skip ic r repl s' 0
          end
      end
  end.

Definition re_sub (ic : bool) (r : regex) (repl s : text) : text :=
  sub_skip ic r repl s 0.

(** [re.escape(k)] compiled: the characters of [k], each a literal. *)
Definition re_escape (k : text) : regex := seq_list (map Lit k).

(** The truth value of [pat.search(txt)]. *)
Definition re_found (ic : bool) (r : regex) (s : text) : bool :=
  match re_search ic r s with
  | Some _ => true
  | None => false
  end.

(* ================================================================== *)
(** ** Dictionaries *)
(* ================================================================== *)

(** A [dict] keeps its keys in insertion order; assigning to a key that
    is present keeps its place. *)
Module Dict.

Section Ops.
Context {V : Type}.

Definition t := list (text * V).

Fixpoint get (k : text) (d : list (text * V)) : option V :=
  match d with
  | [] => None
  | (k', v) :: d' => if text_eqb k k' then Some v else get k d'
  end.

Definition mem (k : text) (d : list (text * V)) : bool :=
  match get k d with
  | Some _ => true
  | None => false
  end.

Fixpoint set (k : text) (v : V) (d : list (text * V)) : list (text * V) :=
  match d with
  | [] => [(k, v)]
  | (k', v') :: d' =>
      if text_eqb k k' then (k', v) :: d' else (k', v') :: set k v d'
  end.

Definition keys (d : list (text * V)) : list text := map fst d.

End Ops.

(** [d.setdefault(k, []).append(x)] *)
Definition append_to {X : Type} (k : text) (x : X) (d : list (text * list X))
  : list (text * list X) :=
  match get k d with
  | Some l => set k (l ++ [x]) d
  | None => set k [x] d
  end.

(** [{k: f(k) for k in ks}] *)
Definition of_keys {V : Type} (f : text -> V) (ks : list text) : list (text * V) :=
  fold_left (fun d k => set k (f k) d) ks [].

End Dict.

(* ================================================================== *)
(** ** Entry extraction: [extract_bib_keys] *)
(* ================================================================== *)

Record bib_entry := BibEntry {
  e_type : text;
  e_key : text;
  e_title : option text;
  e_doi : option text;
  e_body : text
}.

(** [entry_pat], compiled IGNORECASE and DOTALL: an at sign, the type
    [\w+] (group 1), optional white space, an opening brace, optional
    white space, the key [[^,\n\r]+] (group 2), optional white space, a
    comma, and the body (group 3), the shortest text followed by a line
    feed and an at sign or by the end of the text. *)
Definition entry_pat : regex :=
  seq_list
    [ Lit "@"; Group 1 (Plus true CWord); Star true CSpace; Lit "{";
      Star true CSpace; Group 2 (Plus true (CNoneOf [","%char; nl; cr]));
      Star true CSpace; Lit ","; Group 3 (Star false CAny);
      Look (Alt (Seq (Lit nl) (Lit "@")) EndZ) ].

(** The field patterns, IGNORECASE and DOTALL: the field name, an equals
    sign between optional white space, an opening brace or double quote,
    the shortest value (group 1) followed by a closing brace or double
    quote, optional white space, an optional comma, and a line feed. *)
Definition field_pat (name : string) : regex :=
  seq_list
    [ lits name; Star true CSpace; Lit "="; Star true CSpace;
      Cls (COneOf ["{"%char; dquote]); Group 1 (Star false CAny);
      Cls (COneOf ["}"%char; dquote]); Star true CSpace; Opt (Lit ",");
      Lit nl ].

Definition title_pat : regex := field_pat "title".
Definition doi_pat : regex := field_pat "doi".

(** The first match of a field pattern in a body, its group 1 stripped. *)
Definition extract_field (pat : regex) (body : text) : option text :=
  match re_search true pat body with
  | Some f => Some (strip (group_text 1 (f_whole f, f_groups f)))
  | None => None
  end.

Definition entry_of_match (m : text * caps) : bib_entry :=
  let etype := strip (group_text 1 m) in
  let key := strip (group_text 2 m) in
  let body := strip (group_text 3 m) in
  BibEntry etype key (extract_field title_pat body) (extract_field doi_pat body) body.

(** The argument is the text read from the bibliography file. *)
Definition extract_bib_keys (bib_text : text) : list bib_entry :=
  map entry_of_match (finditer true entry_pat bib_text).

(* ================================================================== *)
(** ** File discovery: [find_files] *)
(* ================================================================== *)

(** A path met by [root.rglob('*')], with what the script observes of it:
    [str(p)], whether [p.resolve() == bib_path.resolve()] holds, and the
    text [p.read_text] returns ([None] when it raises). *)
Record doc := Doc {
  d_path : text;
  d_is_bib : bool;
  d_text : option text
}.

(** [str.rfind] of one character. *)
Fixpoint rfind (c : ascii) (s : text) : option nat :=
  match s with
  | [] => None
  | x :: s' =>
      match rfind c s' with
      | Some i => Some (S i)
      | None => if Ascii.eqb x c then Some 0 else None
      end
  end.

(** [p.name]: the final component of the path. *)
Definition path_name (p : text) : text := last (split "/" p) [].

(** [p.suffix]: from the last dot of the name on, when that dot is neither
    its first nor its last character. *)
Definition suffix (p : text) : text :=
  let name := path_name p in
  match rfind "." name with
  | Some i => if (0 <? i) && (i <? length name - 1) then skipn i name else []
  | None => []
  end.

Definition mem_text (x : text) (l : list text) : bool := existsb (text_eqb x) l.

Definition default_exts : list text :=
  [str ".tex"; str ".md"; str ".Rmd"; str ".sty"].

(** [tree] is the sequence [root.rglob('*')] yields. *)
Definition find_files (tree : list doc) (exts : option (list text)) : list doc :=
  let exts := match exts with None => default_exts | Some e => e end in
  filter (fun p => mem_text (lower (suffix (d_path p))) exts) tree.

(* ================================================================== *)
(** ** Usage scan: [scan_for_usage] *)
(* ================================================================== *)

Local Open Scope Z_scope.

(** One occurrence of a key with no entry: [(str(f), lineno, line.strip())] *)
Definition occurrence := (text * nat * text)%type.

Definition alt_list (l : list regex) : regex :=
  match l with
  | [] => Eps
  | r :: l' => fold_left Alt l' r
  end.

(** The pattern of [re.findall] in the scan: a backslash, [nocite],
    optional white space, and a braced argument with no closing brace in
    it, which is group 1. *)
Definition nocite_pat : regex :=
  seq_list
    [ Lit bslash; lits "nocite"; Star true CSpace; Lit "{";
      Group 1 (Star true (CNoneOf ["}"%char])); Lit "}" ].

(** The pattern of [re.finditer] on a line: a backslash, one of
    [cite|citep|citet|parencite|autocite|footcite] (group 1), optional
    white space, and a braced argument with no closing brace in it, which
    is group 2. *)
Definition cite_pat : regex :=
  seq_list
    [ Lit bslash;
      Group 1 (alt_list [lits "cite"; lits "citep"; lits "citet";
                         lits "parencite"; lits "autocite"; lits "footcite"]);
      Star true CSpace; Lit "{";
      Group 2 (Star true (CNoneOf ["}"%char])); Lit "}" ].

(** [used[k] = max(used[k], 1)], for a key of [used].  Both loops that
    mark keys run it on keys of [used] only: the first over [keys], the
    domain of [used]; the second behind [if p in used]. *)
Definition mark_used (k : text) (used : list (text * Z)) : list (text * Z) :=
  match Dict.get k used with
  | Some v => Dict.set k (Z.max v 1) used
  | None => used
  end.

(** The body of the loop over the [\nocite] arguments. *)
Definition nocite_step (keys : list text) (used : list (text * Z)) (nocite : text)
  : list (text * Z) :=
  let content := strip nocite in
  if text_eqb content (str "*")
  then fold_left (fun u k => mark_used k u) keys used
  else fold_left (fun u part => mark_used (strip part) u) (split "," content) used.

Definition nocite_scan (keys : list text) (txt : text) (used : list (text * Z))
  : list (text * Z) :=
  fold_left (nocite_step keys) (findall1 false nocite_pat txt) used.

Definition is_empty (s : text) : bool :=
  match s with [] => true | _ :: _ => false end.

(** The body of the loop over the parts of one citation argument. *)
Definition cite_part (used : list (text * Z)) (path : text) (lineno : nat)
  (line : text) (missing : list (text * list occurrence)) (part : text)
  : list (text * list occurrence) :=
  let p := strip part in
  if negb (is_empty p) && negb (Dict.mem p used)
  then Dict.append_to p (path, lineno, strip line) missing
  else missing.

Definition cite_match (used : list (text * Z)) (path : text) (lineno : nat)
  (line : text) (missing : list (text * list occurrence)) (m : text * caps)
  : list (text * list occurrence) :=
  fold_left (cite_part used path lineno line) (split "," (group_text 2 m)) missing.

Definition cite_line (used : list (text * Z)) (path : text)
  (missing : list (text * list occurrence)) (nline : nat * text)
  : list (text * list occurrence) :=
  fold_left (cite_match used path (fst nline) (snd nline))
            (finditer false cite_pat (snd nline)) missing.

(** [enumerate(lines, start=1)] *)
Definition enumerate1 {X : Type} (l : list X) : list (nat * X) :=
  combine (seq 1 (length l)) l.

Definition cite_scan (used : list (text * Z)) (path : text) (txt : text)
  (missing : list (text * list occurrence)) : list (text * list occurrence) :=
  fold_left (cite_line used path) (enumerate1 (splitlines txt)) missing.

(** [used[k] += 1], for a key of [used]. *)
Definition incr (k : text) (used : list (text * Z)) : list (text * Z) :=
  match Dict.get k used with
  | Some v => Dict.set k (v + 1) used
  | None => used
  end.

Definition generic_search (key_patterns : list (text * regex)) (txt : text)
  (used : list (text * Z)) : list (text * Z) :=
  fold_left
    (fun u kp => if re_found false (snd kp) txt then incr (fst kp) u else u)
    key_patterns used.

Definition scan_state := (list (text * Z) * list (text * list occurrence))%type.

(** The body of the loop over the files. *)
Definition scan_file (keys : list text) (key_patterns : list (text * regex))
  (st : scan_state) (f : doc) : scan_state :=
  if d_is_bib f then st
  else
    match d_text f with
    | None => st
    | Some txt =>
        let used1 := nocite_scan keys txt (fst st) in
        let missing1 := cite_scan used1 (d_path f) txt (snd st) in
        let used2 := generic_search key_patterns txt used1 in
        (used2, missing1)
    end.

Definition scan_from (keys : list text) (st : scan_state) (files : list doc)
  : scan_state :=
  fold_left (scan_file keys (Dict.of_keys re_escape keys)) files st.

Definition scan_for_usage (keys : list text) (files : list doc) : scan_state :=
  scan_from keys (Dict.of_keys (fun _ => 0) keys, []) files.

(* ================================================================== *)
(** ** The report: [main] *)
(* ================================================================== *)

(** [collections.Counter(keys)]: the number of occurrences of each key,
    in the order the keys are first met. *)
Definition counter (keys : list text) : list (text * Z) :=
  fold_left
    (fun d k => match Dict.get k d with
                | Some c => Dict.set k (c + 1) d
                | None => Dict.set k 1 d
                end)
    keys [].

Definition dup_keys_of (keys : list text) : list text :=
  map fst (filter (fun kc => 1 <? snd kc) (counter keys)).

(** A value that is neither [None] nor the empty string. *)
Definition truthy (o : option text) : option text :=
  match o with
  | Some (c :: s) => Some (c :: s)
  | _ => None
  end.

(** [re.sub(r"\s+", " ", title.strip().lower())] *)
Definition norm_title (title : text) : text :=
  re_sub false (Plus true CSpace) (str " ") (lower (strip title)).

(** [doi.strip().lower()] *)
Definition norm_doi (doi : text) : text := lower (strip doi).

Definition group_by (field : bib_entry -> option text) (norm : text -> text)
  (entries : list bib_entry) : list (text * list text) :=
  fold_left
    (fun m e => match truthy (field e) with
                | Some v => Dict.append_to (norm v) (e_key e) m
                | None => m
                end)
    entries [].

Definition title_map (entries : list bib_entry) : list (text * list text) :=
  group_by e_title norm_title entries.

Definition doi_map (entries : list bib_entry) : list (text * list text) :=
  group_by e_doi norm_doi entries.

Definition dups (m : list (text * list text)) : list (text * list text) :=
  filter (fun tks => (1 <? length (snd tks))%nat) m.

Definition dup_titles (entries : list bib_entry) : list (text * list text) :=
  dups (title_map entries).

Definition dup_dois (entries : list bib_entry) : list (text * list text) :=
  dups (doi_map entries).

(** [{e if e.startswith('.') else f'.{e}' for e in args.ext}] *)
Definition dotted (e : text) : text :=
  if startswith (str ".") e then e else "."%char :: e.

(** [args.ext] is [None] without [--ext], and else the list of the values
    given. *)
Definition exts_of_args (ext : option (list text)) : option (list text) :=
  match ext with
  | None | Some [] => None
  | Some l => Some (map dotted l)
  end.

(** *** [repr] of a string and of a list of strings, as [print] shows a
    group of keys *)

Definition hex_digit (n : N) : ascii :=
  if (n <? 10)%N then ascii_of_N (48 + n) else ascii_of_N (87 + n).

Definition repr_char (quote : ascii) (c : ascii) : text :=
  let n := code c in
  if Ascii.eqb c quote || Ascii.eqb c bslash then [bslash; c]
  else if (n =? 9)%N then [bslash; "t"%char]
  else if (n =? 10)%N then [bslash; "n"%char]
  else if (n =? 13)%N then [bslash; "r"%char]
  else if (n <? 32)%N || between 127 160 n || (n =? 173)%N
  then [bslash; "x"%char; hex_digit (n / 16); hex_digit (n mod 16)]
  else [c].

Definition repr (s : text) : text :=
  let quote :=
    if mem_ascii squote s && negb (mem_ascii dquote s) then dquote else squote in
  quote :: flat_map (repr_char quote) s ++ [quote].

Definition repr_list (l : list text) : text :=
  str "[" ++ join (str ", ") (map repr l) ++ str "]".

Record outcome := Outcome {
  stdout : list text;     (* one element for each call of [print] *)
  stderr : list text;
  exit_code : Z
}.

Definition report_unused (unused_keys : list text) : list text :=
  match unused_keys with
  | _ :: _ =>
      (nl :: str "List of unused keys:") :: map (fun k => str "- " ++ k) unused_keys
  | [] =>
      [nl :: str "All bib entries appear to be referenced (or covered by "
          ++ nl :: str "ocite{*})."]
  end.

Definition report_section {X : Type} (title : string) (items : list X)
  (show : X -> list text) : list text :=
  match items with
  | _ :: _ => (nl :: str title) :: flat_map show items
  | [] => []
  end.

Definition show_occurrence (o : occurrence) : text :=
  match o with
  | (fn, ln, line) => str "    " ++ fn ++ str ":" ++ show_nat ln ++ str ": " ++ line
  end.

Definition report (keys : list text) (entries : list bib_entry) (st : scan_state)
  : list text :=
  let used := fst st in
  let missing_cites := snd st in
  let used_keys := map fst (filter (fun kc => 0 <? snd kc) used) in
  let unused_keys := map fst (filter (fun kc => snd kc =? 0) used) in
  [ str "Total bib entries: " ++ show_nat (length keys);
    str "Used entries: " ++ show_nat (length used_keys);
    str "Unused entries: " ++ show_nat (length unused_keys) ]
  ++ report_unused unused_keys
  ++ report_section "Duplicate bib keys in file:" (dup_keys_of keys)
       (fun k => [str "- " ++ k])
  ++ report_section "Duplicate titles (different keys with same title):"
       (dup_titles entries) (fun tks => [str "- " ++ repr_list (snd tks)])
  ++ report_section "Duplicate DOIs (different keys with same DOI):"
       (dup_dois entries) (fun dks => [str "- " ++ repr_list (snd dks)])
  ++ report_section
       "Citation keys referenced in source but missing from bibliography:"
       missing_cites
       (fun kl => (str "- " ++ fst kl) :: map show_occurrence (snd kl)).

(** The bibliography file as a run meets it. *)
Inductive bib_file :=
| Absent                         (* [bib_path.exists()] is false *)
| Unreadable (traceback : text)  (* [read_text] raises; the interpreter
                                    prints this traceback *)
| Readable (content : text).     (* the text [read_text] returns *)

(** A run of the script: [bib_path] is [str(args.bib)], [bib] the
    bibliography file, [ext] the value of [args.ext] and [tree] what
    [args.root.rglob('*')] yields.  The text of the bibliography is read
    with no guard around it: when the file exists and reading it raises
    (it is not UTF-8, it is a directory), the exception ends the run with
    its traceback on the error stream and exit code 1. *)
Definition main (bib_path : text) (bib : bib_file) (ext : option (list text))
  (tree : list doc) : outcome :=
  match bib with
  | Absent => Outcome [] [str "Error: bib file not found: " ++ bib_path] 2
  | Unreadable traceback => Outcome [] [traceback] 1
  | Readable bib_text =>
      match extract_bib_keys bib_text with
      | [] => Outcome [str "No entries found in " ++ bib_path] [] 0
      | entries =>
          let keys := map e_key entries in
          let files := find_files tree (exts_of_args ext) in
          Outcome (report keys entries (scan_for_usage keys files)) [] 0
      end
  end.

(* ================================================================== *)
(** ** Notions the properties are stated with *)
(* ================================================================== *)

(** The usage count of a key in the result of a scan. *)
Definition count_of (k : text) (st : scan_state) : Z :=
  match Dict.get k (fst st) with
  | Some v => v
  | None => 0
  end.

(** [k] occurs in [txt]. *)
Definition occurs (k txt : text) : Prop := exists pre post, txt = pre ++ k ++ post.

(** The arguments of the [\nocite] commands the scan finds in a text. *)
Definition nocite_args (txt : text) : list text := findall1 false nocite_pat txt.

(** A [\nocite] argument marks the key [k]: it is the star and [k] is a
    known key, or it lists [k]. *)
Definition nocite_touches (keys : list text) (k : text) (arg : text) : bool :=
  let content := strip arg in
  if text_eqb content (str "*") then mem_text k keys
  else mem_text k (map strip (split "," content)).

Definition nocite_marks (keys : list text) (k : text) (txt : text) : bool :=
  existsb (nocite_touches keys k) (nocite_args txt).

(** The pattern compiled for [k] is found in [txt]. *)
Definition key_found (k txt : text) : bool := re_found false (re_escape k) txt.

(** What one file does to the count [v] of the key [k]. *)
Definition file_effect (keys : list text) (k : text) (f : doc) (v : Z) : Z :=
  if d_is_bib f then v
  else
    match d_text f with
    | None => v
    | Some txt =>
        (if nocite_marks keys k txt then Z.max v 1 else v)
        + (if mem_text k keys && key_found k txt then 1 else 0)
    end.

(** The file gives evidence that [k] is used. *)
Definition touches (keys : list text) (k : text) (f : doc) : bool :=
  negb (d_is_bib f) &&
  match d_text f with
  | None => false
  | Some txt => nocite_marks keys k txt || (mem_text k keys && key_found k txt)
  end.

(** [max(v, 1)] *)
Definition max1 (v : Z) : Z := Z.max v 1.

(** The scan of a text finds a [\nocite] whose argument is the star. *)
Definition cite_all (txt : text) : bool :=
  existsb (fun arg => text_eqb (strip arg) (str "*")) (nocite_args txt).

(** The keys the citation commands of a line name: the parts of each
    argument, stripped, in the order the scan meets them. *)
Definition cited_keys (line : text) : list text :=
  flat_map (fun m => map strip (split "," (group_text 2 m)))
           (finditer false cite_pat line).

(** The places where the citation commands of a text name [p], first to
    last: one for each time a command names it. *)
Definition occurrences_in_text (p path txt : text) : list occurrence :=
  flat_map
    (fun nline =>
       map (fun _ => (path, fst nline, strip (snd nline)))
           (filter (text_eqb p) (cited_keys (snd nline))))
    (enumerate1 (splitlines txt)).

(** The same for a file; a file that is skipped has none. *)
Definition occurrences_in (p : text) (f : doc) : list occurrence :=
  if d_is_bib f then []
  else
    match d_text f with
    | None => []
    | Some txt => occurrences_in_text p (d_path f) txt
    end.

Definition some_if_nonempty {X : Type} (l : list X) : option (list X) :=
  match l with
  | [] => None
  | _ :: _ => Some l
  end.

(** The entry of a key after [new] was appended to it, one by one. *)
Definition extend {X : Type} (o : option (list X)) (new : list X) : option (list X) :=
  match new with
  | [] => o
  | _ :: _ => Some (match o with Some l => l ++ new | None => new end)
  end.

(** A stripped part that the scan records: not empty and no key of [used]. *)
Definition recordable (used : list (text * Z)) (p : text) : bool :=
  negb (is_empty p) && negb (Dict.mem p used).

(** What one part of a citation argument adds to the entry of [q]. *)
Definition part_records (used : list (text * Z)) (q : text) (x : occurrence)
  (part : text) : list occurrence :=
  if recordable used (strip part) && text_eqb q (strip part) then [x] else [].

(** ** Sample inputs *)

(** Two entries, each on one line. *)
Definition bib_one_line_each : text :=
  str "@article{foo, title={A Study}, doi={10.1/x}}" ++ nl ::
  str "@article{bar, title={A Study}, doi={10.1/y}}".

(** The same two entries, each field on a line of its own. *)
Definition bib_field_lines : text :=
  str "@article{foo," ++ nl :: str "  title={A Study}," ++ nl ::
  str "  doi={10.1/x}" ++ nl :: str "}" ++ nl ::
  str "@article{bar," ++ nl :: str "  title={A Study}," ++ nl ::
  str "  doi={10.1/y}" ++ nl :: str "}" ++ [nl].

Definition doc_of (path content : string) : doc :=
  Doc (str path) false (Some (str content)).

(** An entry whose field, when set and not empty, normalises to [t]. *)
Definition has_norm (field : bib_entry -> option text) (norm : text -> text)
  (t : text) (e : bib_entry) : bool :=
  match truthy (field e) with
  | Some v => text_eqb t (norm v)
  | None => false
  end.

(** The command names of [cite_pat]. *)
Definition cite_names : list text :=
  [str "cite"; str "citep"; str "citet"; str "parencite"; str "autocite";
   str "footcite"].

Definition not_rbrace (c : ascii) : bool := negb (Ascii.eqb c "}").

(** [s'] is what is left of [s] after some prefix. *)
Definition is_suffix (s' s : text) : Prop := exists p, s = p ++ s'.

(** No occurrence of [k] starts inside [pre] when [pre] is followed by
    [rest]. *)
Fixpoint no_start (k pre rest : text) : bool :=
  match pre with
  | [] => true
  | c :: pre' => negb (startswith k (pre ++ rest)) && no_start k pre' rest
  end.

(** The file is read by the scan: it is not the bibliography and its text
    can be read. *)
Definition scanned (f : doc) : bool :=
  negb (d_is_bib f) && match d_text f with Some _ => true | None => false end.

(** The distinct elements of a list, in the order they are first met. *)
Fixpoint first_occ (l : list text) : list text :=
  match l with
  | [] => []
  | x :: l' => x :: filter (fun y => negb (text_eqb y x)) (first_occ l')
  end.

(** How often [k] is in [l]. *)
Definition count_text (k : text) (l : list text) : nat :=
  length (filter (text_eqb k) l).

(** The file is scanned and the text of [k] occurs in it. *)
Definition mentions (k : text) (f : doc) : bool :=
  negb (d_is_bib f) &&
  match d_text f with
  | Some txt => key_found k txt
  | None => false
  end.

(** The file is scanned and one of its [\nocite] commands marks [k]. *)
Definition marks (keys : list text) (k : text) (f : doc) : bool :=
  negb (d_is_bib f) &&
  match d_text f with
  | Some txt => nocite_marks keys k txt
  | None => false
  end.

(** [re.sub(r"\s+", " ", s)] written out: each run of white space becomes
    one space; [in_run] tells that the run has begun. *)
Fixpoint collapse_ws (in_run : bool) (s : text) : text :=
  match s with
  | [] => []
  | c :: s' =>
      if is_space c
      then if in_run then collapse_ws true s' else " "%char :: collapse_ws true s'
      else c :: collapse_ws false s'
  end.

(** [t] is [line] without the white space at its two ends. *)
Definition trimmed (line t : text) : Prop :=
  exists l r,
    line = l ++ t ++ r
    /\ forallb is_space l = true /\ forallb is_space r = true
    /\ (forall c t', t = c :: t' -> is_space c = false)
    /\ (forall t' c, t = t' ++ [c] -> is_space c = false).

(** The records of [p] in the lines of a file, the first of which has the
    number [n]: for each line, one record for each time a citation command
    of the line names [p]. *)
Fixpoint line_records (p path : text) (n : nat) (lines : list text)
  : list occurrence :=
  match lines with
  | [] => []
  | line :: rest =>
      repeat (path, n, strip line) (count_text p (cited_keys line))
      ++ line_records p path (S n) rest
  end.

(** The records of [p] in a file: its lines are numbered from 1; a file
    that is skipped has none. *)
Definition file_records (p : text) (f : doc) : list occurrence :=
  if d_is_bib f then []
  else
    match d_text f with
    | None => []
    | Some txt => line_records p (d_path f) 1 (splitlines txt)
    end.

Definition not_bslash (c : ascii) : bool := negb (Ascii.eqb c bslash).

(* ================================================================== *)
(** * Properties *)
(* ================================================================== *)

(** ** Text equality *)

Lemma text_eqb_eq (a b : text) : text_eqb a b = true <-> a = b.
Proof.
  revert b; induction a as [|x a IH]; intros [|y b]; simpl; split;
    try discriminate; try reflexivity.
  - intros H. apply andb_true_iff in H as [Hx Hab].
    apply Ascii.eqb_eq in Hx. apply IH in Hab. congruence.
  - intros H. injection H as -> ->.
    rewrite Ascii.eqb_refl. simpl. now apply IH.
Qed.

Lemma text_eqb_refl (a : text) : text_eqb a a = true.
Proof. now apply text_eqb_eq. Qed.

Lemma text_eqb_neq (a b : text) : text_eqb a b = false <-> a <> b.
Proof.
  split.
  - intros H E. apply text_eqb_eq in E. congruence.
  - intros H. destruct (text_eqb a b) eqn:E; [|reflexivity].
    apply text_eqb_eq in E. contradiction.
Qed.

Lemma text_eqb_sym (a b : text) : text_eqb a b = text_eqb b a.
Proof.
  destruct (text_eqb a b) eqn:E.
  - apply text_eqb_eq in E. subst. now rewrite text_eqb_refl.
  - apply text_eqb_neq in E. symmetry. apply text_eqb_neq. congruence.
Qed.

Lemma mem_text_In (x : text) (l : list text) : mem_text x l = true <-> In x l.
Proof.
  unfold mem_text. rewrite existsb_exists. split.
  - intros [y [Hy E]]. apply text_eqb_eq in E. now subst.
  - intros H. exists x. split; [assumption | apply text_eqb_refl].
Qed.

Lemma mem_text_not_In (x : text) (l : list text) :
  mem_text x l = false <-> ~ In x l.
Proof.
  rewrite <- mem_text_In. destruct (mem_text x l); split; congruence.
Qed.

(** ** Dictionaries *)

Module DictFacts.
Import Dict.

Section Facts.
Context {V : Type}.
Implicit Types (d : list (text * V)) (k : text) (v : V).

Lemma get_set_same k v d : get k (set k v d) = Some v.
Proof.
  induction d as [|[k' v'] d IH]; simpl.
  - now rewrite text_eqb_refl.
  - destruct (text_eqb k k') eqn:E; simpl; rewrite E; [reflexivity | exact IH].
Qed.

Lemma get_set_other k k' v d : k <> k' -> get k (set k' v d) = get k d.
Proof.
  intros Hne. induction d as [|[k2 v2] d IH]; simpl.
  - apply text_eqb_neq in Hne. now rewrite Hne.
  - destruct (text_eqb k' k2) eqn:E; simpl.
    + apply text_eqb_eq in E. subst k2.
      apply text_eqb_neq in Hne. now rewrite Hne.
    + destruct (text_eqb k k2); [reflexivity | exact IH].
Qed.

Lemma get_set k k' v d :
  get k (set k' v d) = if text_eqb k k' then Some v else get k d.
Proof.
  destruct (text_eqb k k') eqn:E.
  - apply text_eqb_eq in E. subst. apply get_set_same.
  - apply text_eqb_neq in E. now apply get_set_other.
Qed.

Lemma get_None_keys k d : get k d = None <-> ~ In k (keys d).
Proof.
  induction d as [|[k' v'] d IH]; simpl.
  - tauto.
  - destruct (text_eqb k k') eqn:E.
    + apply text_eqb_eq in E. subst. split; [discriminate | tauto].
    + apply text_eqb_neq in E. rewrite IH. split.
      * intros H [H1 | H1]; [congruence | tauto].
      * tauto.
Qed.

Lemma get_Some_keys k v d : get k d = Some v -> In k (keys d).
Proof.
  intros H. destruct (in_dec (list_eq_dec ascii_dec) k (keys d)) as [Hin | Hnin].
  - exact Hin.
  - apply get_None_keys in Hnin. congruence.
Qed.

Lemma keys_get k d : In k (keys d) <-> exists v, get k d = Some v.
Proof.
  split.
  - intros H. destruct (get k d) eqn:E; [eauto|].
    apply get_None_keys in E. contradiction.
  - intros [v H]. eapply get_Some_keys; eauto.
Qed.

Lemma keys_set_present k v d : In k (keys d) -> keys (set k v d) = keys d.
Proof.
  induction d as [|[k' v'] d IH]; simpl; [tauto|].
  intros H. destruct (text_eqb k k') eqn:E; simpl; [reflexivity|].
  f_equal. apply IH. destruct H as [H | H]; [|exact H].
  apply text_eqb_neq in E. congruence.
Qed.

Lemma keys_set_absent k v d : ~ In k (keys d) -> keys (set k v d) = keys d ++ [k].
Proof.
  induction d as [|[k' v'] d IH]; simpl; [reflexivity|].
  intros H. destruct (text_eqb k k') eqn:E; simpl.
  - apply text_eqb_eq in E. subst. tauto.
  - f_equal. apply IH. tauto.
Qed.

Lemma In_keys_set k k' v d : In k (keys (set k' v d)) <-> k = k' \/ In k (keys d).
Proof.
  destruct (in_dec (list_eq_dec ascii_dec) k' (keys d)) as [Hin | Hnin].
  - rewrite keys_set_present by assumption. split; [tauto|].
    intros [-> | H]; assumption.
  - rewrite keys_set_absent by assumption. rewrite in_app_iff. simpl.
    split.
    + intros [H | [H | []]]; auto.
    + intros [H | H]; auto.
Qed.

Lemma NoDup_keys_set k v d : NoDup (keys d) -> NoDup (keys (set k v d)).
Proof.
  intros Hnd.
  destruct (in_dec (list_eq_dec ascii_dec) k (keys d)) as [Hin | Hnin].
  - now rewrite keys_set_present.
  - rewrite keys_set_absent by assumption.
    apply NoDup_app; [assumption | repeat constructor; simpl; tauto |].
    intros x Hx [<- | []]. contradiction.
Qed.

Lemma In_get k v d : NoDup (keys d) -> In (k, v) d <-> get k d = Some v.
Proof.
  induction d as [|[k' v'] d IH]; simpl.
  - intros _. split; [tauto | discriminate].
  - intros Hnd. inversion Hnd as [|? ? Hnin Hnd']; subst.
    destruct (text_eqb k k') eqn:E.
    + apply text_eqb_eq in E. subst k'. split.
      * intros [H | H]; [congruence|].
        exfalso. apply Hnin. change (In (fst (k, v)) (map fst d)).
        now apply in_map.
      * intros H. left. congruence.
    + apply text_eqb_neq in E. rewrite <- IH by assumption. split.
      * intros [H | H]; [congruence | exact H].
      * tauto.
Qed.

End Facts.

End DictFacts.

(* ================================================================== *)
(** ** The usage counts, key by key *)
(* ================================================================== *)

Section Counts.
Import Dict DictFacts.

Lemma mark_used_get k k' (u : list (text * Z)) :
  get k (mark_used k' u) =
  if text_eqb k k' then option_map max1 (get k u) else get k u.
Proof.
  unfold mark_used. destruct (text_eqb k k') eqn:E.
  - apply text_eqb_eq in E. subst k'.
    destruct (get k u) eqn:G; simpl; [apply get_set_same | exact G].
  - destruct (get k' u); [|reflexivity].
    rewrite get_set, E. reflexivity.
Qed.

Lemma max1_idem (o : option Z) : option_map max1 (option_map max1 o) = option_map max1 o.
Proof. destruct o; simpl; [|reflexivity]. unfold max1. f_equal. lia. Qed.

Lemma fold_mark_get k (l : list text) (u : list (text * Z)) :
  get k (fold_left (fun u k' => mark_used k' u) l u) =
  if mem_text k l then option_map max1 (get k u) else get k u.
Proof.
  revert u. induction l as [|a l IH]; intros u; simpl; [reflexivity|].
  rewrite IH, mark_used_get.
  destruct (text_eqb k a), (mem_text k l); simpl;
    try reflexivity; apply max1_idem.
Qed.

Lemma fold_mark_strip (parts : list text) (u : list (text * Z)) :
  fold_left (fun u part => mark_used (strip part) u) parts u =
  fold_left (fun u k' => mark_used k' u) (map strip parts) u.
Proof.
  revert u. induction parts as [|p l IH]; intros u; simpl; [reflexivity | apply IH].
Qed.

Lemma nocite_step_get keys k (u : list (text * Z)) (arg : text) :
  get k (nocite_step keys u arg) =
  if nocite_touches keys k arg then option_map max1 (get k u) else get k u.
Proof.
  unfold nocite_step, nocite_touches.
  destruct (text_eqb (strip arg) (str "*")).
  - apply fold_mark_get.
  - rewrite fold_mark_strip. apply fold_mark_get.
Qed.

Lemma nocite_scan_get keys k txt (u : list (text * Z)) :
  get k (nocite_scan keys txt u) =
  if nocite_marks keys k txt then option_map max1 (get k u) else get k u.
Proof.
  unfold nocite_scan, nocite_marks, nocite_args.
  generalize (findall1 false nocite_pat txt) as args. intros args.
  revert u. induction args as [|a args IH]; intros u; simpl; [reflexivity|].
  rewrite IH, nocite_step_get.
  destruct (nocite_touches keys k a), (existsb (nocite_touches keys k) args);
    simpl; try reflexivity; apply max1_idem.
Qed.

Lemma incr_get k k' (u : list (text * Z)) :
  get k (incr k' u) =
  if text_eqb k k' then option_map Z.succ (get k u) else get k u.
Proof.
  unfold incr. destruct (text_eqb k k') eqn:E.
  - apply text_eqb_eq in E. subst k'.
    destruct (get k u) eqn:G; simpl; [apply get_set_same | exact G].
  - destruct (get k' u); [|reflexivity].
    rewrite get_set, E. reflexivity.
Qed.

Lemma generic_search_get (kp : list (text * regex)) k txt (u : list (text * Z)) :
  NoDup (keys kp) ->
  get k (generic_search kp txt u) =
  if match get k kp with Some r => re_found false r txt | None => false end
  then option_map Z.succ (get k u) else get k u.
Proof.
  unfold generic_search. revert u.
  induction kp as [|[k1 r1] kp IH]; intros u Hnd; simpl; [reflexivity|].
  inversion Hnd as [|? ? Hnin Hnd']; subst.
  rewrite IH by assumption. simpl.
  destruct (text_eqb k k1) eqn:E.
  - apply text_eqb_eq in E. subst k1.
    apply get_None_keys in Hnin. rewrite Hnin.
    destruct (re_found false r1 txt); [|reflexivity].
    rewrite incr_get, text_eqb_refl. reflexivity.
  - assert (G : get k (if re_found false r1 txt then incr k1 u else u) = get k u).
    { destruct (re_found false r1 txt); [|reflexivity].
      rewrite incr_get, E. reflexivity. }
    rewrite G. reflexivity.
Qed.

Lemma fold_set_get {V : Type} (f : text -> V) k (ks : list text) (d : list (text * V)) :
  get k (fold_left (fun d k' => set k' (f k') d) ks d) =
  if mem_text k ks then Some (f k) else get k d.
Proof.
  revert d. induction ks as [|a ks IH]; intros d; simpl; [reflexivity|].
  rewrite IH, get_set.
  destruct (text_eqb k a) eqn:E; simpl.
  - apply text_eqb_eq in E. subst a. now destruct (mem_text k ks).
  - reflexivity.
Qed.

Lemma of_keys_get {V : Type} (f : text -> V) k (ks : list text) :
  get k (of_keys f ks) = if mem_text k ks then Some (f k) else None.
Proof. unfold of_keys. exact (fold_set_get f k ks []). Qed.

Lemma fold_set_NoDup {V : Type} (f : text -> V) (ks : list text) (d : list (text * V)) :
  NoDup (keys d) -> NoDup (keys (fold_left (fun d k' => set k' (f k') d) ks d)).
Proof.
  revert d. induction ks as [|a ks IH]; intros d Hnd; simpl; [assumption|].
  apply IH. now apply NoDup_keys_set.
Qed.

Lemma of_keys_NoDup {V : Type} (f : text -> V) (ks : list text) :
  NoDup (keys (of_keys f ks)).
Proof. unfold of_keys. apply fold_set_NoDup. constructor. Qed.

(** The count of each key after a file is a function of its count before
    and of the file. *)
Lemma scan_file_get keys k (st : scan_state) (f : doc) :
  get k (fst (scan_file keys (of_keys re_escape keys) st f)) =
  option_map (file_effect keys k f) (get k (fst st)).
Proof.
  unfold scan_file, file_effect.
  destruct (d_is_bib f).
  - now destruct (get k (fst st)).
  - destruct (d_text f) as [txt|]; [|now destruct (get k (fst st))].
    cbn [fst].
    rewrite generic_search_get by apply of_keys_NoDup.
    rewrite of_keys_get, nocite_scan_get. unfold key_found.
    destruct (mem_text k keys), (re_found false (re_escape k) txt),
      (nocite_marks keys k txt), (get k (fst st)); simpl;
      try reflexivity; f_equal; unfold max1; lia.
Qed.

Lemma scan_from_get keys k (files : list doc) (st : scan_state) :
  get k (fst (scan_from keys st files)) =
  option_map (fun v => fold_left (fun v f => file_effect keys k f v) files v)
             (get k (fst st)).
Proof.
  unfold scan_from. revert st.
  induction files as [|f files IH]; intros st; simpl.
  - now destruct (get k (fst st)).
  - rewrite IH, scan_file_get. now destruct (get k (fst st)).
Qed.

Lemma scan_for_usage_get keys k (files : list doc) :
  get k (fst (scan_for_usage keys files)) =
  if mem_text k keys
  then Some (fold_left (fun v f => file_effect keys k f v) files 0)
  else None.
Proof.
  unfold scan_for_usage. rewrite scan_from_get. cbn [fst].
  rewrite of_keys_get. now destruct (mem_text k keys).
Qed.

Lemma file_effect_ge keys k f v : v <= file_effect keys k f v.
Proof.
  unfold file_effect.
  destruct (d_is_bib f); [lia|].
  destruct (d_text f) as [txt|]; [|lia].
  destruct (nocite_marks keys k txt), (mem_text k keys && key_found k txt); lia.
Qed.

Lemma file_effect_pos keys k f v :
  0 <= v -> (0 < file_effect keys k f v <-> 0 < v \/ touches keys k f = true).
Proof.
  unfold file_effect, touches. intros Hv.
  destruct (d_is_bib f); simpl; [intuition congruence|].
  destruct (d_text f) as [txt|]; [|intuition congruence].
  destruct (nocite_marks keys k txt), (mem_text k keys && key_found k txt);
    simpl; intuition (try congruence; try lia).
Qed.

Lemma fold_effect_ge keys k (files : list doc) v :
  v <= fold_left (fun v f => file_effect keys k f v) files v.
Proof.
  revert v. induction files as [|f files IH]; intros v; simpl; [lia|].
  specialize (IH (file_effect keys k f v)).
  pose proof (file_effect_ge keys k f v). lia.
Qed.

Lemma fold_effect_pos keys k (files : list doc) v :
  0 <= v ->
  (0 < fold_left (fun v f => file_effect keys k f v) files v <->
   0 < v \/ existsb (touches keys k) files = true).
Proof.
  revert v. induction files as [|f files IH]; intros v Hv; simpl.
  - intuition congruence.
  - pose proof (file_effect_ge keys k f v) as Hge.
    rewrite IH by lia. rewrite file_effect_pos by assumption.
    rewrite orb_true_iff. tauto.
Qed.

End Counts.

(* ================================================================== *)
(** ** Order of the files *)
(* ================================================================== *)

Lemma existsb_Permutation {X : Type} (p : X -> bool) (l l' : list X) :
  Permutation l l' -> existsb p l = existsb p l'.
Proof.
  induction 1 as [| x l l' _ IH | x y l | l l' l'' _ IH1 _ IH2]; simpl.
  - reflexivity.
  - now rewrite IH.
  - destruct (p x), (p y); reflexivity.
  - congruence.
Qed.

Lemma count_of_scan keys k (files : list doc) :
  count_of k (scan_for_usage keys files) =
  if mem_text k keys
  then fold_left (fun v f => file_effect keys k f v) files 0
  else 0.
Proof.
  unfold count_of. rewrite scan_for_usage_get. now destruct (mem_text k keys).
Qed.

Lemma count_of_scan_nonneg keys k (files : list doc) :
  0 <= count_of k (scan_for_usage keys files).
Proof.
  rewrite count_of_scan. destruct (mem_text k keys); [|lia].
  apply fold_effect_ge.
Qed.

Lemma count_of_scan_pos keys k (files : list doc) :
  0 < count_of k (scan_for_usage keys files) <->
  mem_text k keys = true /\ existsb (touches keys k) files = true.
Proof.
  rewrite count_of_scan. destruct (mem_text k keys).
  - rewrite fold_effect_pos by lia. intuition lia.
  - intuition (try lia; try congruence).
Qed.

(** C5: the usage count of every key never decreases as further files are
    processed, and whether a key ends up used (count above 0) or unused
    (count 0) is the same for every permutation of the list of files. *)
Theorem usage_monotone_and_order_invariant
  (keys : list text) (files files' more : list doc) (k : text)
  (HP : Permutation files files') :
  count_of k (scan_for_usage keys files)
    <= count_of k (scan_for_usage keys (files ++ more))
  /\ (0 < count_of k (scan_for_usage keys files)
      <-> 0 < count_of k (scan_for_usage keys files'))
  /\ (count_of k (scan_for_usage keys files) = 0
      <-> count_of k (scan_for_usage keys files') = 0).
Proof.
  assert (Hpos : 0 < count_of k (scan_for_usage keys files)
                 <-> 0 < count_of k (scan_for_usage keys files')).
  { rewrite !count_of_scan_pos.
    now rewrite (existsb_Permutation (touches keys k) files files' HP). }
  split; [|split].
  - rewrite !count_of_scan. destruct (mem_text k keys); [|lia].
    rewrite fold_left_app. apply fold_effect_ge.
  - exact Hpos.
  - pose proof (count_of_scan_nonneg keys k files).
    pose proof (count_of_scan_nonneg keys k files'). lia.
Qed.

(* ================================================================== *)
(** ** The pattern compiled for a key *)
(* ================================================================== *)

Lemma rmatch_seq_cons ic r (l : list regex) s g (K : cont) :
  rmatch ic (seq_list (r :: l)) s g K =
  rmatch ic r s g (fun s' g' => rmatch ic (seq_list l) s' g' K).
Proof. destruct l; reflexivity. Qed.

Lemma rmatch_re_escape (k : text) s g (K : cont) :
  rmatch false (re_escape k) s g K =
  if startswith k s then K (skipn (length k) s) g else None.
Proof.
  unfold re_escape. revert s. induction k as [|a k IH]; intros s.
  - destruct s; reflexivity.
  - cbn [map]. rewrite rmatch_seq_cons. cbn [rmatch].
    destruct s as [|c s]; [reflexivity|].
    cbn [startswith lit_match length skipn].
    destruct (Ascii.eqb a c); [apply IH | reflexivity].
Qed.

Lemma startswith_iff (k s : text) :
  startswith k s = true <-> exists post, s = k ++ post.
Proof.
  revert s. induction k as [|a k IH]; intros s; simpl.
  - split; [eauto | reflexivity].
  - destruct s as [|c s].
    + split; [discriminate | intros [post H]; discriminate].
    + rewrite andb_true_iff, Ascii.eqb_eq, IH. split.
      * intros [-> [post ->]]. eauto.
      * intros [post H]. injection H as -> ->. eauto.
Qed.

Lemma occurs_cons (k : text) c (s : text) :
  occurs k (c :: s) <-> startswith k (c :: s) = true \/ occurs k s.
Proof.
  unfold occurs. rewrite startswith_iff. split.
  - intros [[|x pre] [post H]]; simpl in H.
    + left. eauto.
    + right. injection H as _ ->. eauto.
  - intros [[post H] | [pre [post H]]].
    + exists [], post. exact H.
    + exists (c :: pre), post. simpl. now rewrite H.
Qed.

Lemma occurs_nil (k : text) : occurs k [] <-> k = [].
Proof.
  unfold occurs. split.
  - intros [pre [post H]]. symmetry in H.
    apply app_eq_nil in H as [_ H]. now apply app_eq_nil in H as [H _].
  - intros ->. now exists [], [].
Qed.

(** [pat.search(txt)] for the pattern of a key holds exactly when the key
    occurs in the text. *)
Lemma key_found_occurs (k txt : text) : key_found k txt = true <-> occurs k txt.
Proof.
  unfold key_found, re_found.
  induction txt as [|c s IH].
  - cbn [re_search]. unfold match_at. rewrite rmatch_re_escape.
    rewrite occurs_nil. destruct k; simpl; split; congruence.
  - cbn [re_search]. unfold match_at in *. rewrite rmatch_re_escape.
    rewrite occurs_cons.
    destruct (startswith k (c :: s)); [tauto|].
    destruct (re_search false (re_escape k) s); simpl in *.
    + rewrite <- IH. intuition congruence.
    + rewrite <- IH. intuition congruence.
Qed.

Lemma key_found_not_occurs (k txt : text) :
  key_found k txt = false <-> ~ occurs k txt.
Proof.
  rewrite <- key_found_occurs. destruct (key_found k txt); split; congruence.
Qed.

(** C6: the generic search adds exactly 1 to the count of a known key when
    the text of the key occurs in the content of the file, however often
    it occurs, and nothing otherwise. *)
Theorem generic_search_counts_once
  (keys : list text) (used : list (text * Z)) (txt k : text) (v : Z)
  (Hk : In k keys) (Hv : Dict.get k used = Some v) :
  (occurs k txt ->
   Dict.get k (generic_search (Dict.of_keys re_escape keys) txt used) = Some (v + 1))
  /\ (~ occurs k txt ->
      Dict.get k (generic_search (Dict.of_keys re_escape keys) txt used) = Some v).
Proof.
  rewrite generic_search_get by apply of_keys_NoDup.
  rewrite of_keys_get. apply mem_text_In in Hk. rewrite Hk, Hv.
  fold (key_found k txt). split; intros H.
  - apply key_found_occurs in H. rewrite H. reflexivity.
  - apply key_found_not_occurs in H. rewrite H. reflexivity.
Qed.

(* ================================================================== *)
(** ** Cite-all *)
(* ================================================================== *)

Lemma cite_all_marks keys k txt :
  cite_all txt = true -> In k keys -> nocite_marks keys k txt = true.
Proof.
  unfold cite_all, nocite_marks. rewrite !existsb_exists.
  intros [arg [Hin Harg]] Hk. exists arg. split; [assumption|].
  unfold nocite_touches. rewrite Harg. now apply mem_text_In.
Qed.

Lemma file_effect_cite_all keys k f txt v :
  d_is_bib f = false -> d_text f = Some txt -> cite_all txt = true ->
  In k keys -> 0 <= v -> 1 <= file_effect keys k f v.
Proof.
  intros Hb Ht Hc Hk Hv. unfold file_effect. rewrite Hb, Ht.
  rewrite (cite_all_marks keys k txt Hc Hk).
  destruct (mem_text k keys && key_found k txt); lia.
Qed.

(** C8, as the scan reads a document: when the scan of some scanned
    document finds a [\nocite] whose argument is the star up to white
    space around it, every known key ends with a count of at least 1. *)
Theorem cite_all_marks_every_key
  (keys : list text) (files : list doc) (f : doc) (txt k : text)
  (Hf : In f files) (Hb : d_is_bib f = false) (Ht : d_text f = Some txt)
  (Hc : cite_all txt = true) (Hk : In k keys) :
  1 <= count_of k (scan_for_usage keys files).
Proof.
  rewrite count_of_scan.
  pose proof Hk as Hm. apply mem_text_In in Hm. rewrite Hm.
  apply in_split in Hf as [l1 [l2 ->]].
  rewrite fold_left_app. cbn [fold_left].
  pose proof (fold_effect_ge keys k l1 0) as H1.
  pose proof (file_effect_cite_all keys k f txt _ Hb Ht Hc Hk H1) as H2.
  pose proof (fold_effect_ge keys k l2
                (file_effect keys k f
                   (fold_left (fun v f0 => file_effect keys k f0 v) l1 0))).
  lia.
Qed.

(* ================================================================== *)
(** ** Missing citations, key by key *)
(* ================================================================== *)

Section Missing.
Import Dict DictFacts.

Lemma extend_nil {X : Type} (o : option (list X)) : extend o [] = o.
Proof. reflexivity. Qed.

Lemma extend_app {X : Type} (o : option (list X)) (a b : list X) :
  extend (extend o a) b = extend o (a ++ b).
Proof.
  destruct a as [|x a]; [reflexivity|].
  destruct b as [|y b]; simpl.
  - now rewrite app_nil_r.
  - destruct o; simpl; now rewrite <- ?app_assoc.
Qed.

Lemma extend_None {X : Type} (l : list X) : extend None l = some_if_nonempty l.
Proof. destruct l; reflexivity. Qed.

Lemma append_to_get {X : Type} q p (x : X) (ms : list (text * list X)) :
  get q (append_to p x ms) =
  if text_eqb q p then extend (get q ms) [x] else get q ms.
Proof.
  unfold append_to. destruct (text_eqb q p) eqn:E.
  - apply text_eqb_eq in E. subst p.
    destruct (get q ms); now rewrite get_set_same.
  - destruct (get p ms); now rewrite get_set, E.
Qed.

Lemma fold_get_extend {B X : Type}
  (f : list (text * list X) -> B -> list (text * list X)) (g : B -> list X) q :
  (forall ms b, get q (f ms b) = extend (get q ms) (g b)) ->
  forall l ms, get q (fold_left f l ms) = extend (get q ms) (flat_map g l).
Proof.
  intros H. induction l as [|b l IH]; intros ms; simpl; [reflexivity|].
  now rewrite IH, H, extend_app.
Qed.

Lemma cite_part_get used path n line ms part q :
  get q (cite_part used path n line ms part) =
  extend (get q ms) (part_records used q (path, n, strip line) part).
Proof.
  unfold cite_part, part_records, recordable.
  destruct (negb (is_empty (strip part)) && negb (mem (strip part) used)); simpl.
  - rewrite append_to_get. now destruct (text_eqb q (strip part)).
  - reflexivity.
Qed.

Lemma part_records_spec used q x part :
  part_records used q x part =
  if recordable used q
  then map (fun _ => x) (filter (text_eqb q) [strip part])
  else [].
Proof.
  unfold part_records. simpl.
  destruct (text_eqb q (strip part)) eqn:E.
  - apply text_eqb_eq in E. subst q. rewrite andb_true_r.
    now destruct (recordable used (strip part)).
  - rewrite andb_false_r. now destruct (recordable used q).
Qed.

Lemma parts_records used q x (parts : list text) :
  flat_map (part_records used q x) parts =
  if recordable used q
  then map (fun _ => x) (filter (text_eqb q) (map strip parts))
  else [].
Proof.
  induction parts as [|p parts IH]; simpl.
  - now destruct (recordable used q).
  - rewrite IH, part_records_spec. simpl.
    destruct (recordable used q); [|reflexivity].
    now destruct (text_eqb q (strip p)).
Qed.

Lemma cite_match_get used path n line ms m q :
  get q (cite_match used path n line ms m) =
  extend (get q ms)
    (if recordable used q
     then map (fun _ => (path, n, strip line))
              (filter (text_eqb q) (map strip (split "," (group_text 2 m))))
     else []).
Proof.
  unfold cite_match.
  rewrite (fold_get_extend _ (part_records used q (path, n, strip line)))
    by (intros; apply cite_part_get).
  now rewrite parts_records.
Qed.

Lemma cite_line_get used path ms (nline : nat * text) q :
  get q (cite_line used path ms nline) =
  extend (get q ms)
    (if recordable used q
     then map (fun _ => (path, fst nline, strip (snd nline)))
              (filter (text_eqb q) (cited_keys (snd nline)))
     else []).
Proof.
  unfold cite_line, cited_keys.
  rewrite (fold_get_extend _ _ q (fun ms m => cite_match_get used path _ _ ms m q)).
  f_equal. generalize (finditer false cite_pat (snd nline)) as matches.
  induction matches as [|m matches IH]; simpl.
  - now destruct (recordable used q).
  - rewrite IH. destruct (recordable used q); [|reflexivity].
    now rewrite filter_app, map_app.
Qed.

Lemma cite_scan_get used path txt ms q :
  get q (cite_scan used path txt ms) =
  extend (get q ms)
    (if recordable used q then occurrences_in_text q path txt else []).
Proof.
  unfold cite_scan, occurrences_in_text.
  rewrite (fold_get_extend _ _ q (fun ms nline => cite_line_get used path ms nline q)).
  f_equal. generalize (enumerate1 (splitlines txt)) as lines.
  induction lines as [|l lines IH]; simpl.
  - now destruct (recordable used q).
  - rewrite IH. now destruct (recordable used q).
Qed.

Lemma mem_option_map {V : Type} (g : V -> V) q (u u' : list (text * V)) :
  get q u' = option_map g (get q u) -> mem q u' = mem q u.
Proof. unfold mem. intros ->. now destruct (get q u). Qed.

Lemma nocite_scan_mem keys txt u q : mem q (nocite_scan keys txt u) = mem q u.
Proof.
  unfold mem. rewrite nocite_scan_get.
  destruct (nocite_marks keys q txt); now destruct (get q u).
Qed.

Lemma scan_file_mem keys (st : scan_state) f q :
  mem q (fst (scan_file keys (of_keys re_escape keys) st f)) = mem q (fst st).
Proof. eapply mem_option_map. apply scan_file_get. Qed.

Lemma scan_file_recordable keys (st : scan_state) f q :
  recordable (fst (scan_file keys (of_keys re_escape keys) st f)) q =
  recordable (fst st) q.
Proof. unfold recordable. now rewrite scan_file_mem. Qed.

Lemma scan_file_missing_get keys kp (st : scan_state) f q :
  get q (snd (scan_file keys kp st f)) =
  extend (get q (snd st))
    (if recordable (fst st) q then occurrences_in q f else []).
Proof.
  unfold scan_file, occurrences_in.
  destruct (d_is_bib f); [now destruct (recordable (fst st) q)|].
  destruct (d_text f) as [txt|]; [|now destruct (recordable (fst st) q)].
  cbn [snd]. rewrite cite_scan_get.
  unfold recordable. now rewrite nocite_scan_mem.
Qed.

Lemma scan_from_missing_get keys (files : list doc) (st : scan_state) q :
  get q (snd (scan_from keys st files)) =
  extend (get q (snd st))
    (if recordable (fst st) q then flat_map (occurrences_in q) files else []).
Proof.
  unfold scan_from. revert st.
  induction files as [|f files IH]; intros st; simpl.
  - now destruct (recordable (fst st) q).
  - rewrite IH, scan_file_missing_get, scan_file_recordable.
    rewrite extend_app. now destruct (recordable (fst st) q).
Qed.

Lemma recordable_initial keys q :
  recordable (of_keys (fun _ => 0) keys) q = negb (is_empty q) && negb (mem_text q keys).
Proof.
  unfold recordable, mem. rewrite of_keys_get. now destruct (mem_text q keys).
Qed.

Lemma scan_for_usage_missing_get keys (files : list doc) q :
  get q (snd (scan_for_usage keys files)) =
  if negb (is_empty q) && negb (mem_text q keys)
  then some_if_nonempty (flat_map (occurrences_in q) files)
  else None.
Proof.
  unfold scan_for_usage. rewrite scan_from_missing_get. cbn [fst snd get].
  rewrite recordable_initial.
  destruct (negb (is_empty q) && negb (mem_text q keys)); [apply extend_None | reflexivity].
Qed.

End Missing.

Lemma is_empty_false (p : text) : is_empty p = false <-> p <> [].
Proof. destruct p; simpl; split; congruence. Qed.

Lemma recordable_cond (keys : list text) (p : text) :
  negb (is_empty p) && negb (mem_text p keys) = true <-> p <> [] /\ ~ In p keys.
Proof.
  rewrite andb_true_iff, !negb_true_iff, is_empty_false, mem_text_not_In. tauto.
Qed.


(* ================================================================== *)
(** ** What the scan returns *)
(* ================================================================== *)

Lemma lstrip_all_space (s : text) : forallb is_space s = true -> lstrip s = [].
Proof.
  induction s as [|c s IH]; simpl; [reflexivity|].
  intros H. apply andb_true_iff in H as [Hc Hs]. rewrite Hc. now apply IH.
Qed.

Lemma strip_all_space (s : text) : forallb is_space s = true -> strip s = [].
Proof. intros H. unfold strip. now rewrite lstrip_all_space. Qed.

(** C10: the counts the scan returns are defined for exactly the given
    keys and none is negative; every key of the missing citations it
    returns is a non-empty string that is not among the given keys; a part
    of a citation argument that is empty or white space is never recorded,
    as in [\cite{}] and [\cite{a,}]. *)
Theorem scan_result_domains (keys : list text) (files : list doc) :
  (forall k, In k (Dict.keys (fst (scan_for_usage keys files))) <-> In k keys)
  /\ (forall k v, Dict.get k (fst (scan_for_usage keys files)) = Some v -> 0 <= v)
  /\ (forall p, In p (Dict.keys (snd (scan_for_usage keys files))) ->
                p <> [] /\ ~ In p keys)
  /\ (forall used path n line missing part,
        forallb is_space part = true ->
        cite_part used path n line missing part = missing)
  /\ snd (scan_for_usage [str "a"]
            [Doc (str "doc.tex") false (Some (str "\cite{} and \cite{a,}"))]) = [].
Proof.
  split; [|split; [|split; [|split]]].
  - intros k. rewrite DictFacts.keys_get, scan_for_usage_get, <- mem_text_In.
    destruct (mem_text k keys); split; try congruence; eauto.
    intros [v H]. discriminate.
  - intros k v H. pose proof (count_of_scan_nonneg keys k files) as Hn.
    unfold count_of in Hn. now rewrite H in Hn.
  - intros p Hp. apply DictFacts.keys_get in Hp as [l Hl].
    rewrite scan_for_usage_missing_get in Hl.
    destruct (negb (is_empty p) && negb (mem_text p keys)) eqn:E; [|discriminate].
    now apply recordable_cond.
  - intros used path n line missing part H.
    unfold cite_part. now rewrite (strip_all_space part H).
  - vm_compute. reflexivity.
Qed.

(* ================================================================== *)
(** ** Duplicate titles and DOIs *)
(* ================================================================== *)

Section Groups.
Import Dict DictFacts.
Context (field : bib_entry -> option text) (norm : text -> text).

Lemma group_by_get (entries : list bib_entry) (t : text) :
  get t (group_by field norm entries) =
  some_if_nonempty (map e_key (filter (has_norm field norm t) entries)).
Proof.
  unfold group_by.
  rewrite (fold_get_extend _
             (fun e => if has_norm field norm t e then [e_key e] else []) t).
  - cbn [get]. rewrite extend_None. f_equal.
    induction entries as [|e entries IH]; simpl; [reflexivity|].
    rewrite IH. now destruct (has_norm field norm t e).
  - intros ms e. unfold has_norm.
    destruct (truthy (field e)) as [v|]; [|reflexivity].
    rewrite append_to_get. now destruct (text_eqb t (norm v)).
Qed.

Lemma append_to_NoDup {X : Type} k (x : X) (m : list (text * list X)) :
  NoDup (keys m) -> NoDup (keys (append_to k x m)).
Proof. unfold append_to. destruct (get k m); apply NoDup_keys_set. Qed.

Lemma group_by_NoDup (entries : list bib_entry) :
  NoDup (keys (group_by field norm entries)).
Proof.
  unfold group_by.
  assert (H : forall (m : list (text * list text)), NoDup (keys m) ->
    NoDup (keys (fold_left
      (fun m e => match truthy (field e) with
                  | Some v => append_to (norm v) (e_key e) m
                  | None => m
                  end) entries m))).
  { induction entries as [|e entries IH]; intros m Hm; simpl; [assumption|].
    apply IH. destruct (truthy (field e)); [now apply append_to_NoDup | assumption]. }
  apply H. constructor.
Qed.

(** A group that is reported has two keys or more, and its keys are those
    of the entries whose field normalises to the value of the group, in
    the order of the entries. *)
Lemma dups_group_by (entries : list bib_entry) (t : text) (ks : list text) :
  In (t, ks) (dups (group_by field norm entries)) ->
  (2 <= length ks)%nat
  /\ ks = map e_key (filter (has_norm field norm t) entries).
Proof.
  unfold dups. rewrite filter_In. cbn [snd]. intros [Hin Hlen].
  apply Nat.ltb_lt in Hlen. split; [lia|].
  apply (In_get t ks _ (group_by_NoDup entries)) in Hin.
  rewrite group_by_get in Hin.
  destruct (map e_key (filter (has_norm field norm t) entries));
    simpl in Hin; congruence.
Qed.

End Groups.

(** C1, as the code extracts fields: written with each field on a line of
    its own, the two entries give exactly one duplicate-title group, of
    [foo] and [bar], and no duplicate-DOI group, and the report shows the
    group; written on one line each, they have no title and no DOI.  The
    groups collect the keys of the entries with the same stripped,
    lower-cased title with white space collapsed (for DOIs: stripped and
    lower-cased), and only groups of two keys or more are reported. *)
Theorem duplicate_groups :
  (dup_titles (extract_bib_keys bib_field_lines)
     = [(str "a study", [str "foo"; str "bar"])]
   /\ dup_dois (extract_bib_keys bib_field_lines) = []
   /\ In (str "- ['foo', 'bar']")
         (stdout (main (str "lit.bib") (Readable bib_field_lines) None [])))
  /\ (map e_title (extract_bib_keys bib_one_line_each) = [None; None]
      /\ map e_doi (extract_bib_keys bib_one_line_each) = [None; None])
  /\ (forall entries t ks,
        In (t, ks) (dup_titles entries) ->
        (2 <= length ks)%nat
        /\ ks = map e_key (filter (has_norm e_title norm_title t) entries))
  /\ (forall entries d ks,
        In (d, ks) (dup_dois entries) ->
        (2 <= length ks)%nat
        /\ ks = map e_key (filter (has_norm e_doi norm_doi d) entries)).
Proof.
  split; [|split; [|split]].
  - split; [vm_compute; reflexivity|].
    split; [vm_compute; reflexivity|].
    vm_compute. tauto.
  - split; vm_compute; reflexivity.
  - intros entries t ks. apply dups_group_by.
  - intros entries d ks. apply dups_group_by.
Qed.

(** C1 as stated fails: for the two entries as shown, each on one line, no
    duplicate-title group is reported. *)
Lemma one_line_entries_no_title_group :
  map e_key (extract_bib_keys bib_one_line_each) = [str "foo"; str "bar"]
  /\ dup_titles (extract_bib_keys bib_one_line_each) = []
  /\ ~ In (str "- ['foo', 'bar']")
          (stdout (main (str "lit.bib") (Readable bib_one_line_each) None [])).
Proof.
  split; [vm_compute; reflexivity|].
  split; [vm_compute; reflexivity|].
  vm_compute. intuition discriminate.
Qed.

(* ================================================================== *)
(** ** A bibliography with no entry *)
(* ================================================================== *)

(** C2, as the code reports it: when the bibliography file exists, can be
    read, and no entry is found in it, the run prints the one line
    [No entries found in <path>] and nothing else, and ends with code 0. *)
Theorem no_entries_message
  (bib_path bib_text : text) (ext : option (list text)) (tree : list doc)
  (H : extract_bib_keys bib_text = []) :
  main bib_path (Readable bib_text) ext tree
  = Outcome [str "No entries found in " ++ bib_path] [] 0.
Proof. unfold main. now rewrite H. Qed.

Lemma no_entries_message_witness :
  extract_bib_keys (str "% nothing here") = []
  /\ main (str "lit.bib") (Readable (str "% nothing here")) None []
     = Outcome [str "No entries found in " ++ str "lit.bib"] [] 0.
Proof.
  split; [vm_compute; reflexivity|].
  apply (no_entries_message (str "lit.bib") (str "% nothing here") None []).
  vm_compute; reflexivity.
Defined.

(** C2 as stated fails: with no entry the line [Total bib entries: 0] is
    not what the run prints; and a bibliography file that exists but
    cannot be read does not end the run with code 0. *)
Lemma no_entries_no_total_line :
  extract_bib_keys (str "% nothing here") = []
  /\ stdout (main (str "lit.bib") (Readable (str "% nothing here")) None [])
     <> [str "Total bib entries: 0"]
  /\ exit_code (main (str "lit.bib") (Unreadable (str "UnicodeDecodeError")) None [])
     <> 0.
Proof.
  split; [vm_compute; reflexivity|].
  split; vm_compute; discriminate.
Qed.

(* ================================================================== *)
(** ** File discovery *)
(* ================================================================== *)

(** C3 fails on the code: the suffix of a path is lowered before it is
    looked up, so a file whose suffix is [.Rmd] is never found with the
    default extensions, although [.Rmd] is one of them. *)
Theorem default_discovery_drops_Rmd :
  (forall tree f, suffix (d_path f) = str ".Rmd" -> ~ In f (find_files tree None))
  /\ find_files [doc_of "notes.Rmd" "text"; doc_of "paper.tex" "text"] None
     = [doc_of "paper.tex" "text"].
Proof.
  split; [|vm_compute; reflexivity].
  intros tree f Hs Hin. unfold find_files in Hin.
  apply filter_In in Hin as [_ Hm]. rewrite Hs in Hm.
  vm_compute in Hm. discriminate.
Qed.

(** C4 fails on the code: the extensions given with [--ext] replace the
    default ones, so a file with a default extension is no longer found. *)
Theorem ext_option_replaces_defaults :
  (forall e l tree,
      find_files tree (exts_of_args (Some (e :: l)))
      = filter (fun p => mem_text (lower (suffix (d_path p))) (map dotted (e :: l)))
               tree)
  /\ find_files [doc_of "paper.tex" "text"; doc_of "notes.txt" "text"]
                (exts_of_args (Some [str "txt"]))
     = [doc_of "notes.txt" "text"].
Proof. split; [reflexivity | vm_compute; reflexivity]. Qed.

(* ================================================================== *)
(** ** Citation commands with an optional argument *)
(* ================================================================== *)

(** C9: a citation command with an optional argument in brackets before
    the braces is not matched: whatever the known keys, the line
    [\cite[p. 3]{unknownkey}] gives no missing-citation record. *)
Theorem optional_argument_not_matched (keys : list text) :
  finditer false cite_pat (str "\cite[p. 3]{unknownkey}") = []
  /\ snd (scan_for_usage keys [doc_of "doc.tex" "\cite[p. 3]{unknownkey}"]) = [].
Proof. split; vm_compute; reflexivity. Qed.

(* ================================================================== *)
(** ** Witnesses and counterexamples of the scan *)
(* ================================================================== *)

Lemma usage_monotone_and_order_invariant_witness :
  Permutation [doc_of "a.tex" "\cite{k}"; doc_of "b.tex" "text"]
              [doc_of "b.tex" "text"; doc_of "a.tex" "\cite{k}"]
  /\ (count_of (str "k")
        (scan_for_usage [str "k"] [doc_of "a.tex" "\cite{k}"; doc_of "b.tex" "text"])
      <= count_of (str "k")
           (scan_for_usage [str "k"]
              ([doc_of "a.tex" "\cite{k}"; doc_of "b.tex" "text"]
                 ++ [doc_of "c.tex" "see k"]))
      /\ (0 < count_of (str "k")
                (scan_for_usage [str "k"]
                   [doc_of "a.tex" "\cite{k}"; doc_of "b.tex" "text"])
          <-> 0 < count_of (str "k")
                    (scan_for_usage [str "k"]
                       [doc_of "b.tex" "text"; doc_of "a.tex" "\cite{k}"]))
      /\ (count_of (str "k")
            (scan_for_usage [str "k"]
               [doc_of "a.tex" "\cite{k}"; doc_of "b.tex" "text"]) = 0
          <-> count_of (str "k")
                (scan_for_usage [str "k"]
                   [doc_of "b.tex" "text"; doc_of "a.tex" "\cite{k}"]) = 0)).
Proof.
  split; [apply perm_swap|].
  apply (usage_monotone_and_order_invariant [str "k"]
           [doc_of "a.tex" "\cite{k}"; doc_of "b.tex" "text"]
           [doc_of "b.tex" "text"; doc_of "a.tex" "\cite{k}"]
           [doc_of "c.tex" "see k"] (str "k")).
  apply perm_swap.
Defined.

Lemma generic_search_counts_once_witness :
  In (str "k") [str "k"; str "j"]
  /\ Dict.get (str "k") [(str "k", 0); (str "j", 0)] = Some 0
  /\ (occurs (str "k") (str "k and k again") ->
      Dict.get (str "k")
        (generic_search (Dict.of_keys re_escape [str "k"; str "j"])
           (str "k and k again") [(str "k", 0); (str "j", 0)]) = Some (0 + 1))
  /\ (~ occurs (str "k") (str "k and k again") ->
      Dict.get (str "k")
        (generic_search (Dict.of_keys re_escape [str "k"; str "j"])
           (str "k and k again") [(str "k", 0); (str "j", 0)]) = Some 0).
Proof.
  split; [simpl; tauto|].
  split; [reflexivity|].
  apply (generic_search_counts_once [str "k"; str "j"]
           [(str "k", 0); (str "j", 0)] (str "k and k again") (str "k") 0).
  - simpl; tauto.
  - reflexivity.
Defined.

Lemma cite_all_marks_every_key_witness :
  1 <= count_of (str "k")
         (scan_for_usage [str "k"; str "j"]
            [doc_of "a.tex" "text"; doc_of "b.tex" "\nocite{*}"]).
Proof.
  apply (cite_all_marks_every_key [str "k"; str "j"]
           [doc_of "a.tex" "text"; doc_of "b.tex" "\nocite{*}"]
           (doc_of "b.tex" "\nocite{*}") (str "\nocite{*}") (str "k")).
  - simpl; tauto.
  - reflexivity.
  - reflexivity.
  - vm_compute; reflexivity.
  - simpl; tauto.
Defined.

(** C8 as stated fails: a document can contain the text [\nocite{*}] in
    the argument of an earlier [\nocite] that was not closed; the scan
    then reads one argument, which is not the star, and the key stays at
    count 0. *)
Lemma nocite_star_inside_argument :
  occurs (str "\nocite{*}") (str "\nocite{\nocite{*}")
  /\ nocite_args (str "\nocite{\nocite{*}") = [str "\nocite{*"]
  /\ count_of (str "k")
       (scan_for_usage [str "k"] [doc_of "doc.tex" "\nocite{\nocite{*}"]) = 0.
Proof.
  split; [exists (str "\nocite{"), []; reflexivity|].
  split; vm_compute; reflexivity.
Qed.

(* ================================================================== *)
(** ** A plain [\nocite{*}] *)
(* ================================================================== *)

Lemma consumed_app (a b : text) : consumed (a ++ b) b = a.
Proof.
  unfold consumed. rewrite length_app.
  replace (length a + length b - length b)%nat with (length a) by lia.
  induction a; simpl; [now destruct b | now f_equal].
Qed.

Lemma match_at_nocite_starts (s rest : text) (g : caps) :
  match_at false nocite_pat s = Some (rest, g) ->
  startswith (str "\nocite") s = true.
Proof.
  unfold match_at, nocite_pat. rewrite rmatch_seq_cons. cbn [rmatch].
  destruct s as [|c s]; [discriminate|].
  unfold lit_match. destruct (Ascii.eqb bslash c) eqn:E; [|discriminate].
  rewrite rmatch_seq_cons.
  change (lits "nocite") with (re_escape (str "nocite")).
  rewrite rmatch_re_escape.
  destruct (startswith (str "nocite") s) eqn:E'; [|discriminate].
  intros _. change (Ascii.eqb bslash c && startswith (str "nocite") s = true).
  now rewrite E, E'.
Qed.

Lemma finditer_skip_no_match ic r (pre s : text) :
  (forall p1 p2, pre = p1 ++ p2 -> p2 <> [] -> match_at ic r (p2 ++ s) = None) ->
  finditer_skip ic r (pre ++ s) 0 = finditer_skip ic r s 0.
Proof.
  induction pre as [|c pre IH]; intros H; [reflexivity|].
  cbn [app finditer_skip].
  assert (H0 : match_at ic r (c :: pre ++ s) = None).
  { apply (H [] (c :: pre) eq_refl). discriminate. }
  rewrite H0.
  apply IH. intros p1 p2 -> Hne. now apply (H (c :: p1) p2).
Qed.

Lemma match_at_nocite_star (post : text) :
  match_at false nocite_pat (str "\nocite{*}" ++ post) = Some (post, [(1%nat, str "*")]).
Proof.
  unfold match_at. cbn -[consumed].
  change ("*"%char :: "}"%char :: post) with (str "*" ++ "}"%char :: post).
  now rewrite consumed_app.
Qed.

(** When no [\nocite] starts before it, a [\nocite{*}] in a text is read
    by the scan as the star. *)
Lemma plain_nocite_star_is_cite_all (pre post : text) :
  (forall p1 p2, pre = p1 ++ p2 -> p2 <> [] ->
                 startswith (str "\nocite") (p2 ++ str "\nocite{*}" ++ post) = false) ->
  cite_all (pre ++ str "\nocite{*}" ++ post) = true.
Proof.
  intros H. unfold cite_all, nocite_args, findall1, finditer.
  rewrite finditer_skip_no_match.
  - change (str "\nocite{*}" ++ post)
      with (bslash :: (str "nocite{*}" ++ post)) at 1.
    cbn [finditer_skip].
    change (bslash :: (str "nocite{*}" ++ post)) with (str "\nocite{*}" ++ post).
    rewrite match_at_nocite_star. reflexivity.
  - intros p1 p2 Hp Hne.
    destruct (match_at false nocite_pat (p2 ++ str "\nocite{*}" ++ post))
      as [[rest g]|] eqn:E; [|reflexivity].
    apply match_at_nocite_starts in E. rewrite (H p1 p2 Hp Hne) in E. discriminate.
Qed.

(* ================================================================== *)
(** ** How the patterns consume a text *)
(* ================================================================== *)

Lemma star_greedy_inv {A : Type} (p : ascii -> bool) (s : text)
  (K : text -> option A) (x : A) :
  star_greedy p s K = Some x ->
  exists ws s', s = ws ++ s' /\ forallb p ws = true /\ K s' = Some x.
Proof.
  induction s as [|c s IH]; simpl; intros H.
  - exists [], []. auto.
  - destruct (p c) eqn:Hc.
    + destruct (star_greedy p s K) as [y|] eqn:E.
      * injection H as ->. destruct (IH eq_refl) as [ws [s' [-> [Hws HK]]]].
        exists (c :: ws), s'. simpl. rewrite Hc. auto.
      * exists [], (c :: s). auto.
    + exists [], (c :: s). auto.
Qed.

Lemma star_lazy_inv {A : Type} (p : ascii -> bool) (s : text)
  (K : text -> option A) (x : A) :
  star_lazy p s K = Some x ->
  exists ws s', s = ws ++ s' /\ forallb p ws = true /\ K s' = Some x.
Proof.
  induction s as [|c s IH]; simpl; intros H.
  - destruct (K []) eqn:E; [|discriminate]. exists [], []. rewrite E. auto.
  - destruct (K (c :: s)) eqn:E.
    + exists [], (c :: s). rewrite E. auto.
    + destruct (p c) eqn:Hc; [|discriminate].
      destruct (IH H) as [ws [s' [-> [Hws HK]]]].
      exists (c :: ws), s'. simpl. rewrite Hc. auto.
Qed.

Lemma is_suffix_refl (s : text) : is_suffix s s.
Proof. now exists []. Qed.

Lemma is_suffix_trans (a b c : text) : is_suffix a b -> is_suffix b c -> is_suffix a c.
Proof. intros [p ->] [q ->]. exists (q ++ p). now rewrite app_assoc. Qed.

Lemma is_suffix_cons (c : ascii) (s : text) : is_suffix s (c :: s).
Proof. now exists [c]. Qed.

Lemma is_suffix_app (p s : text) : is_suffix s (p ++ s).
Proof. now exists p. Qed.

(** Whatever the pattern, a match goes on with what is left of the text
    after a prefix of it. *)
Lemma rmatch_calls_cont ic (r : regex) :
  forall s g (K : cont) x,
    rmatch ic r s g K = Some x ->
    exists s' g', is_suffix s' s /\ K s' g' = Some x.
Proof.
  induction r as [| a | cl | r1 IH1 r2 IH2 | r1 IH1 r2 IH2 | b cl | n r IH | r IH |];
    intros s g K x H; cbn [rmatch] in H.
  - exists s, g. split; [apply is_suffix_refl | exact H].
  - destruct s as [|c s]; [discriminate|].
    destruct (lit_match ic a c); [|discriminate].
    exists s, g. split; [apply is_suffix_cons | exact H].
  - destruct s as [|c s]; [discriminate|].
    destruct (cls_match cl c); [|discriminate].
    exists s, g. split; [apply is_suffix_cons | exact H].
  - apply IH1 in H as [s1 [g1 [Hs1 H]]].
    apply IH2 in H as [s2 [g2 [Hs2 H]]].
    exists s2, g2. split; [eapply is_suffix_trans; eauto | exact H].
  - destruct (rmatch ic r1 s g K) as [y|] eqn:E.
    + injection H as ->. now apply IH1 in E.
    + now apply IH2 in H.
  - destruct b.
    + apply star_greedy_inv in H as [ws [s' [-> [_ H]]]].
      exists s', g. split; [apply is_suffix_app | exact H].
    + apply star_lazy_inv in H as [ws [s' [-> [_ H]]]].
      exists s', g. split; [apply is_suffix_app | exact H].
  - apply IH in H as [s1 [g1 [Hs1 H]]]. eauto.
  - destruct (rmatch ic r s g (fun s' g' => Some (s', g'))) as [[s1 g1]|];
      [|discriminate].
    exists s, g1. split; [apply is_suffix_refl | exact H].
  - destruct s; [|discriminate].
    exists [], g. split; [apply is_suffix_refl | exact H].
Qed.

Lemma rmatch_alt_inv ic r1 r2 s g (K : cont) x :
  rmatch ic (Alt r1 r2) s g K = Some x ->
  rmatch ic r1 s g K = Some x \/ rmatch ic r2 s g K = Some x.
Proof.
  cbn [rmatch]. destruct (rmatch ic r1 s g K); [left | right]; assumption.
Qed.

Lemma startswith_skipn (k s : text) :
  startswith k s = true -> s = k ++ skipn (length k) s.
Proof.
  revert s. induction k as [|a k IH]; intros s; simpl; [reflexivity|].
  destruct s as [|c s]; [discriminate|].
  intros H. apply andb_true_iff in H as [Ha Hk].
  apply Ascii.eqb_eq in Ha. subst c. f_equal. now apply IH.
Qed.

(** The braced argument that ends [nocite_pat] and [cite_pat], after the
    command name: white space, an opening brace, the argument, a closing
    brace; the argument is group [n] and has no closing brace in it. *)
Lemma braced_argument_inv (n : nat) (s1 : text) (g1 : caps) (rest : text) (g : caps) :
  rmatch false
    (seq_list [Star true CSpace; Lit "{"; Group n (Star true (CNoneOf ["}"%char]));
               Lit "}"])
    s1 g1 (fun s' g' => Some (s', g')) = Some (rest, g) ->
  exists ws arg,
    s1 = ws ++ "{"%char :: arg ++ "}"%char :: rest
    /\ forallb is_space ws = true
    /\ forallb not_rbrace arg = true
    /\ g = (n, arg) :: g1.
Proof.
  rewrite rmatch_seq_cons. cbn [rmatch]. intros H.
  apply star_greedy_inv in H as [ws [s2 [-> [Hws H]]]].
  rewrite rmatch_seq_cons in H. cbn [rmatch] in H.
  destruct s2 as [|c s2]; [discriminate|].
  unfold lit_match in H. destruct (Ascii.eqb "{" c) eqn:Ec; [|discriminate].
  apply Ascii.eqb_eq in Ec. subst c.
  rewrite rmatch_seq_cons in H. cbn [rmatch seq_list] in H.
  apply star_greedy_inv in H as [arg [s3 [-> [Harg H]]]].
  destruct s3 as [|c s3]; [discriminate|].
  unfold lit_match in H. destruct (Ascii.eqb "}" c) eqn:Ec; [|discriminate].
  apply Ascii.eqb_eq in Ec. subst c.
  injection H as -> <-.
  exists ws, arg. rewrite consumed_app.
  repeat split; try assumption.
  clear -Harg. induction arg as [|c arg IH]; [reflexivity|].
  simpl in *. apply andb_true_iff in Harg as [Hc Ha].
  unfold not_rbrace. unfold mem_ascii in Hc. simpl in Hc.
  rewrite orb_false_r in Hc. rewrite Hc. simpl. now apply IH.
Qed.

Lemma rmatch_group ic n r s g (K : cont) :
  rmatch ic (Group n r) s g K =
  rmatch ic r s g (fun s' g' => K s' ((n, consumed s s') :: g')).
Proof. reflexivity. Qed.

Lemma name_then_argument_inv (name s : text) (g0 : caps) (n : nat)
  (K : text -> caps -> caps) (rest : text) (g : caps) :
  rmatch false (re_escape name) s g0
    (fun s' g' =>
       rmatch false
         (seq_list [Star true CSpace; Lit "{";
                    Group n (Star true (CNoneOf ["}"%char])); Lit "}"])
         s' (K s' g') (fun s'' g'' => Some (s'', g''))) = Some (rest, g) ->
  exists ws arg,
    s = name ++ ws ++ "{"%char :: arg ++ "}"%char :: rest
    /\ forallb is_space ws = true
    /\ forallb not_rbrace arg = true
    /\ group n g = Some arg.
Proof.
  rewrite rmatch_re_escape.
  destruct (startswith name s) eqn:E; [|discriminate].
  intros H. apply braced_argument_inv in H as [ws [arg [Hs [Hws [Harg ->]]]]].
  exists ws, arg. repeat split; try assumption.
  - rewrite (startswith_skipn name s E) at 1. now rewrite Hs.
  - cbn [group]. now rewrite Nat.eqb_refl.
Qed.

Lemma cite_pat_inv (s rest : text) (g : caps)
  (H : match_at false cite_pat s = Some (rest, g)) :
  exists name ws arg,
    In name cite_names
    /\ s = bslash :: name ++ ws ++ "{"%char :: arg ++ "}"%char :: rest
    /\ forallb is_space ws = true
    /\ forallb not_rbrace arg = true
    /\ group 2 g = Some arg.
Proof.
  unfold match_at, cite_pat in H. rewrite rmatch_seq_cons in H.
  cbn [rmatch] in H. destruct s as [|c s]; [discriminate|].
  unfold lit_match in H. destruct (Ascii.eqb bslash c) eqn:Ec; [|discriminate].
  apply Ascii.eqb_eq in Ec. subst c.
  rewrite rmatch_seq_cons, rmatch_group in H. cbn [alt_list fold_left] in H.
  change (lits "cite") with (re_escape (str "cite")) in H.
  change (lits "citep") with (re_escape (str "citep")) in H.
  change (lits "citet") with (re_escape (str "citet")) in H.
  change (lits "parencite") with (re_escape (str "parencite")) in H.
  change (lits "autocite") with (re_escape (str "autocite")) in H.
  change (lits "footcite") with (re_escape (str "footcite")) in H.
  repeat match type of H with
         | rmatch _ (Alt _ _) _ _ _ = _ =>
             apply rmatch_alt_inv in H; destruct H as [H | H]
         end;
    match type of H with
    | rmatch false (re_escape ?name) _ _ _ = Some _ =>
        apply (name_then_argument_inv name s [] 2
                 (fun s' g' => (1%nat, consumed s s') :: g')) in H
          as [ws [arg [Hs [Hws [Harg Hg]]]]];
        exists name, ws, arg; repeat split; try assumption;
        [unfold cite_names; simpl; tauto | now rewrite Hs]
    end.
Qed.

(** X1: every match of the citation pattern is a backslash, one of the six
    command names, white space, and a braced argument with no closing
    brace in it; group 2 is that argument. *)
Theorem cite_match_shape (s rest : text) (g : caps)
  (H : match_at false cite_pat s = Some (rest, g)) :
  exists name ws arg,
    In name cite_names
    /\ s = bslash :: name ++ ws ++ "{"%char :: arg ++ "}"%char :: rest
    /\ forallb is_space ws = true
    /\ forallb not_rbrace arg = true
    /\ group 2 g = Some arg.
Proof. exact (cite_pat_inv s rest g H). Qed.

Lemma cite_match_shape_witness :
  exists name ws arg,
    In name cite_names
    /\ str "\citep {a, b}." = bslash :: name ++ ws ++ "{"%char :: arg ++ "}"%char :: str "."
    /\ forallb is_space ws = true
    /\ forallb not_rbrace arg = true
    /\ group 2 [(2%nat, str "a, b"); (1%nat, str "citep")] = Some arg.
Proof.
  apply (cite_match_shape (str "\citep {a, b}.") (str ".")
           [(2%nat, str "a, b"); (1%nat, str "citep")]).
  vm_compute; reflexivity.
Defined.

(* ================================================================== *)
(** ** A cited key occurs in the text *)
(* ================================================================== *)

Lemma occurs_refl (s : text) : occurs s s.
Proof. exists [], []. now rewrite app_nil_r. Qed.

Lemma occurs_trans (a b c : text) : occurs a b -> occurs b c -> occurs a c.
Proof.
  intros [p1 [q1 ->]] [p2 [q2 ->]]. exists (p2 ++ p1), (q1 ++ q2).
  now rewrite <- !app_assoc.
Qed.

Lemma occurs_suffix (a s' s : text) : occurs a s' -> is_suffix s' s -> occurs a s.
Proof.
  intros Ha [p ->]. eapply occurs_trans; [exact Ha|].
  exists p, []. now rewrite app_nil_r.
Qed.

Lemma occurs_prefix (a b : text) : occurs a (a ++ b).
Proof. now exists [], b. Qed.

Lemma occurs_nil_l (s : text) : occurs [] s.
Proof. now exists [], s. Qed.

Lemma occurs_tail (a : text) c (s : text) : occurs a s -> occurs a (c :: s).
Proof. intros H. apply occurs_cons. now right. Qed.

Lemma lstrip_suffix (s : text) : is_suffix (lstrip s) s.
Proof.
  induction s as [|c s IH]; simpl; [apply is_suffix_refl|].
  destruct (is_space c); [|apply is_suffix_refl].
  eapply is_suffix_trans; [exact IH | apply is_suffix_cons].
Qed.

Lemma rstrip_prefix (s : text) : exists q, s = rstrip s ++ q.
Proof.
  unfold rstrip. destruct (lstrip_suffix (rev s)) as [p Hp].
  exists (rev p). rewrite <- rev_app_distr, <- Hp. now rewrite rev_involutive.
Qed.

Lemma strip_occurs (s : text) : occurs (strip s) s.
Proof.
  unfold strip. apply (occurs_suffix _ (lstrip s)); [|apply lstrip_suffix].
  destruct (rstrip_prefix (lstrip s)) as [q Hq]. rewrite Hq at 2.
  apply occurs_prefix.
Qed.

Lemma split_head_prefix sep (s l : text) (ls : list text) :
  split sep s = l :: ls -> exists post, s = l ++ post.
Proof.
  revert l ls. induction s as [|c s IH]; simpl; intros l ls H.
  - injection H as <- <-. now exists [].
  - destruct (Ascii.eqb c sep).
    + injection H as <- <-. now exists (c :: s).
    + destruct (split sep s) as [|l' ls'] eqn:E.
      * injection H as <- <-. destruct s; simpl in E; [discriminate|].
        destruct (Ascii.eqb a sep); [discriminate|].
        destruct (split sep s); discriminate.
      * injection H as <- <-. destruct (IH l' ls' eq_refl) as [post ->].
        now exists post.
Qed.

Lemma split_In_occurs sep (s part : text) : In part (split sep s) -> occurs part s.
Proof.
  revert part. induction s as [|c s IH]; simpl; intros part H.
  - destruct H as [<- | []]. apply occurs_refl.
  - destruct (Ascii.eqb c sep).
    + destruct H as [<- | H]; [apply occurs_nil_l | apply occurs_tail; auto].
    + destruct (split sep s) as [|l ls] eqn:E.
      * destruct H as [<- | []]. now exists [], s.
      * destruct H as [<- | H].
        -- destruct (split_head_prefix sep s l ls E) as [post ->].
           apply (occurs_prefix (c :: l) post).
        -- apply occurs_tail. apply IH. now right.
Qed.

Lemma splitlines_head_prefix (s l : text) (ls : list text) :
  splitlines s = l :: ls -> exists post, s = l ++ post.
Proof.
  revert l ls. induction s as [|c s IH]; simpl; intros l ls H; [discriminate|].
  destruct (is_linebreak c).
  - destruct s as [|c' s'].
    + injection H as <- <-. now exists [c].
    + destruct (Ascii.eqb c cr && Ascii.eqb c' nl);
        injection H as <- <-; now exists (c :: c' :: s').
  - destruct (splitlines s) as [|l' ls'] eqn:E.
    + injection H as <- <-. now exists s.
    + injection H as <- <-. destruct (IH l' ls' eq_refl) as [post ->].
      now exists post.
Qed.

Lemma splitlines_In_occurs_upto (n : nat) :
  forall s, (length s <= n)%nat ->
  forall line, In line (splitlines s) -> occurs line s.
Proof.
  induction n as [|n IH]; intros s Hlen line H.
  - destruct s; [destruct H | simpl in Hlen; lia].
  - destruct s as [|c s]; [destruct H|]. simpl in Hlen, H.
    assert (IHs : forall line, In line (splitlines s) -> occurs line s).
    { apply IH. lia. }
    destruct (is_linebreak c).
    + destruct s as [|c' s'].
      * destruct H as [<- | []]. apply occurs_nil_l.
      * destruct (Ascii.eqb c cr && Ascii.eqb c' nl).
        -- destruct H as [<- | H]; [apply occurs_nil_l|].
           apply occurs_tail, occurs_tail. apply IH; [simpl in Hlen; lia | exact H].
        -- destruct H as [<- | H]; [apply occurs_nil_l|].
           apply occurs_tail. now apply IHs.
    + destruct (splitlines s) as [|l ls] eqn:E.
      * destruct H as [<- | []]. now exists [], s.
      * destruct H as [<- | H].
        -- destruct (splitlines_head_prefix s l ls E) as [post ->].
           apply (occurs_prefix (c :: l) post).
        -- apply occurs_tail. apply IHs. now right.
Qed.

Lemma splitlines_In_occurs (s line : text) :
  In line (splitlines s) -> occurs line s.
Proof. apply (splitlines_In_occurs_upto (length s)). lia. Qed.

(** Every match [finditer] yields is a match at some position of the text. *)
Lemma finditer_skip_In ic r (s : text) :
  forall (n : nat) m,
    In m (finditer_skip ic r s n) ->
    exists s' rest,
      is_suffix s' s /\ match_at ic r s' = Some (rest, snd m)
      /\ fst m = consumed s' rest.
Proof.
  induction s as [|c s IH]; intros n m H.
  - destruct n; simpl in H; [|destruct H].
    destruct (match_at ic r []) as [[rest g]|] eqn:E; [|destruct H].
    destruct H as [<- | []]. exists [], rest. split; [apply is_suffix_refl|].
    split; [exact E | reflexivity].
  - assert (Htail : forall k, In m (finditer_skip ic r s k) ->
              exists s' rest, is_suffix s' (c :: s)
                /\ match_at ic r s' = Some (rest, snd m)
                /\ fst m = consumed s' rest).
    { intros k Hk. destruct (IH k m Hk) as [s' [rest [Hs H']]].
      exists s', rest. split; [|exact H'].
      eapply is_suffix_trans; [exact Hs | apply is_suffix_cons]. }
    destruct n; cbn [finditer_skip] in H; [|now apply (Htail n)].
    destruct (match_at ic r (c :: s)) as [[rest g]|] eqn:E.
    + destruct H as [<- | H]; [|now apply Htail in H].
      exists (c :: s), rest. split; [apply is_suffix_refl|].
      split; [exact E | reflexivity].
    + now apply (Htail 0%nat).
Qed.

Lemma cited_keys_occur (line p : text) : In p (cited_keys line) -> occurs p line.
Proof.
  unfold cited_keys. rewrite in_flat_map. intros [m [Hm Hp]].
  apply in_map_iff in Hp as [part [<- Hpart]].
  apply finditer_skip_In in Hm as [s' [rest [Hs [Hmatch _]]]].
  apply cite_pat_inv in Hmatch as [name [ws [arg [_ [Hs' [_ [_ Hg]]]]]]].
  unfold group_text in Hpart. rewrite Hg in Hpart.
  apply split_In_occurs in Hpart.
  apply (occurs_suffix _ s' line); [|exact Hs].
  eapply occurs_trans; [apply strip_occurs|].
  eapply occurs_trans; [exact Hpart|].
  rewrite Hs'. exists (bslash :: name ++ ws ++ ["{"%char]), ("}"%char :: rest).
  simpl. now rewrite <- !app_assoc.
Qed.

Lemma enumerate1_In {X : Type} (l : list X) (n : nat) (x : X) :
  In (n, x) (enumerate1 l) -> In x l.
Proof. unfold enumerate1. apply in_combine_r. Qed.

Lemma touches_used keys k (files : list doc) f :
  In f files -> touches keys k f = true -> In k keys ->
  0 < count_of k (scan_for_usage keys files).
Proof.
  intros Hf Ht Hk. apply count_of_scan_pos. split; [now apply mem_text_In|].
  apply existsb_exists. eauto.
Qed.

(** X2: a known key that a citation command of a scanned file names is
    counted as used: the text of the key occurs in the file, so the
    generic search finds it. *)
Theorem cited_known_key_is_used
  (keys : list text) (files : list doc) (f : doc) (txt : text)
  (n : nat) (line p : text)
  (Hf : In f files) (Hb : d_is_bib f = false) (Ht : d_text f = Some txt)
  (Hl : In (n, line) (enumerate1 (splitlines txt)))
  (Hp : In p (cited_keys line)) (Hk : In p keys) :
  0 < count_of p (scan_for_usage keys files).
Proof.
  apply (touches_used keys p files f Hf); [|exact Hk].
  unfold touches. rewrite Hb, Ht. cbn [negb andb].
  apply orb_true_iff. right. apply andb_true_iff.
  split; [now apply mem_text_In|].
  apply key_found_occurs.
  eapply occurs_trans; [apply cited_keys_occur; exact Hp|].
  apply splitlines_In_occurs. now apply enumerate1_In in Hl.
Qed.

Lemma cited_known_key_is_used_witness :
  0 < count_of (str "b")
        (scan_for_usage [str "a"; str "b"]
           [doc_of "x.tex" "first line
see \citet{a, b} here"]).
Proof.
  apply (cited_known_key_is_used [str "a"; str "b"]
           [doc_of "x.tex" "first line
see \citet{a, b} here"]
           (doc_of "x.tex" "first line
see \citet{a, b} here")
           (str "first line
see \citet{a, b} here") 2 (str "see \citet{a, b} here") (str "b")).
  - simpl; tauto.
  - reflexivity.
  - reflexivity.
  - vm_compute; tauto.
  - vm_compute; tauto.
  - simpl; tauto.
Defined.

(* ================================================================== *)
(** ** Keys marked by [\nocite] *)
(* ================================================================== *)

Lemma marked_count keys k (files : list doc) f txt :
  In f files -> d_is_bib f = false -> d_text f = Some txt ->
  nocite_marks keys k txt = true -> In k keys ->
  1 <= count_of k (scan_for_usage keys files).
Proof.
  intros Hf Hb Ht Hm Hk. rewrite count_of_scan.
  pose proof Hk as Hin. apply mem_text_In in Hin. rewrite Hin.
  apply in_split in Hf as [l1 [l2 ->]].
  rewrite fold_left_app. cbn [fold_left].
  pose proof (fold_effect_ge keys k l1 0) as H1.
  set (v1 := fold_left (fun v f0 => file_effect keys k f0 v) l1 0) in *.
  pose proof (fold_effect_ge keys k l2 (file_effect keys k f v1)) as H2.
  assert (H3 : 1 <= file_effect keys k f v1).
  { unfold file_effect. rewrite Hb, Ht, Hm.
    destruct (mem_text k keys && key_found k txt); lia. }
  lia.
Qed.

Lemma no_start_spec (k pre rest : text) :
  no_start k pre rest = true ->
  forall p1 p2, pre = p1 ++ p2 -> p2 <> [] -> startswith k (p2 ++ rest) = false.
Proof.
  induction pre as [|c pre IH]; intros H p1 p2 Hp Hne.
  - symmetry in Hp. apply app_eq_nil in Hp as [_ ->]. contradiction.
  - cbn [no_start] in H. apply andb_true_iff in H as [Hc Hpre].
    apply negb_true_iff in Hc.
    destruct p1 as [|x p1]; simpl in Hp.
    + subst p2. exact Hc.
    + injection Hp as _ Hp. now apply (IH Hpre p1 p2).
Qed.

(** X3: a document that contains [\nocite{*}] with no [\nocite] starting
    before it marks every known key as used. *)
Theorem plain_nocite_star_marks_every_key
  (keys : list text) (files : list doc) (f : doc) (pre post k : text)
  (Hf : In f files) (Hb : d_is_bib f = false)
  (Ht : d_text f = Some (pre ++ str "\nocite{*}" ++ post))
  (Hpre : no_start (str "\nocite") pre (str "\nocite{*}" ++ post) = true)
  (Hk : In k keys) :
  1 <= count_of k (scan_for_usage keys files).
Proof.
  apply (marked_count keys k files f _ Hf Hb Ht); [|exact Hk].
  apply cite_all_marks; [|exact Hk].
  apply plain_nocite_star_is_cite_all. now apply no_start_spec.
Qed.

Lemma plain_nocite_star_marks_every_key_witness :
  1 <= count_of (str "j")
         (scan_for_usage [str "k"; str "j"]
            [Doc (str "main.tex") false
                 (Some (str "\cite{k} and " ++ str "\nocite{*}" ++ str " at the end"))]).
Proof.
  apply (plain_nocite_star_marks_every_key [str "k"; str "j"]
           [Doc (str "main.tex") false
                (Some (str "\cite{k} and " ++ str "\nocite{*}" ++ str " at the end"))]
           (Doc (str "main.tex") false
                (Some (str "\cite{k} and " ++ str "\nocite{*}" ++ str " at the end")))
           (str "\cite{k} and ") (str " at the end") (str "j")).
  - simpl; tauto.
  - reflexivity.
  - reflexivity.
  - vm_compute; reflexivity.
  - simpl; tauto.
Defined.

(** X4: a known key that a [\nocite] of a scanned document lists ends with a
    count of at least 1. *)
Theorem nocite_list_marks_known_key
  (keys : list text) (files : list doc) (f : doc) (txt arg k : text)
  (Hf : In f files) (Hb : d_is_bib f = false) (Ht : d_text f = Some txt)
  (Harg : In arg (nocite_args txt))
  (Hlist : In k (map strip (split "," (strip arg))))
  (Hk : In k keys) :
  1 <= count_of k (scan_for_usage keys files).
Proof.
  apply (marked_count keys k files f txt Hf Hb Ht); [|exact Hk].
  unfold nocite_marks. apply existsb_exists. exists arg. split; [exact Harg|].
  unfold nocite_touches.
  destruct (text_eqb (strip arg) (str "*")); now apply mem_text_In.
Qed.

Lemma nocite_list_marks_known_key_witness :
  1 <= count_of (str "b")
         (scan_for_usage [str "a"; str "b"] [doc_of "x.tex" "\nocite{ zz , b }"]).
Proof.
  apply (nocite_list_marks_known_key [str "a"; str "b"]
           [doc_of "x.tex" "\nocite{ zz , b }"] (doc_of "x.tex" "\nocite{ zz , b }")
           (str "\nocite{ zz , b }") (str " zz , b ") (str "b")).
  - simpl; tauto.
  - reflexivity.
  - reflexivity.
  - vm_compute; tauto.
  - vm_compute; tauto.
  - simpl; tauto.
Defined.

(* ================================================================== *)
(** ** Used and unused keys *)
(* ================================================================== *)

Lemma touches_false keys k f :
  mem_text k keys = true ->
  (touches keys k f = false <->
   forall txt, d_is_bib f = false -> d_text f = Some txt ->
               nocite_marks keys k txt = false /\ ~ occurs k txt).
Proof.
  intros Hm. unfold touches. rewrite Hm. cbn [andb].
  destruct (d_is_bib f); cbn [negb andb].
  - split; [discriminate | reflexivity].
  - destruct (d_text f) as [txt|].
    + rewrite orb_false_iff, key_found_not_occurs. split.
      * intros H txt' _ E. injection E as <-. exact H.
      * intros H. now apply H.
    + split; [discriminate | reflexivity].
Qed.

(** X5: a known key is reported as unused exactly when no scanned file
    contains its text and no [\nocite] of a scanned file marks it. *)
Theorem unused_iff_untouched
  (keys : list text) (files : list doc) (k : text) (Hk : In k keys) :
  count_of k (scan_for_usage keys files) = 0
  <-> forall f txt, In f files -> d_is_bib f = false -> d_text f = Some txt ->
                    nocite_marks keys k txt = false /\ ~ occurs k txt.
Proof.
  pose proof (count_of_scan_nonneg keys k files) as Hn.
  pose proof (count_of_scan_pos keys k files) as Hp.
  apply mem_text_In in Hk.
  assert (Hall : existsb (touches keys k) files = false
                 <-> forall f, In f files -> touches keys k f = false).
  { induction files as [|f0 l IH]; simpl.
    - split; [intros _ f [] | reflexivity].
    - rewrite orb_false_iff. split.
      + intros [H0 Hl] f [<- | Hf]; [exact H0|].
        clear Hn Hp. revert f Hf. clear IH.
        induction l as [|a l IHl]; intros f Hf; [destruct Hf|].
        simpl in Hl. apply orb_false_iff in Hl as [Ha Hl].
        destruct Hf as [<- | Hf]; [exact Ha | now apply IHl].
      + intros H. split; [apply H; now left|].
        clear Hn Hp IH. induction l as [|a l IHl]; [reflexivity|].
        simpl. rewrite (H a) by (right; now left). simpl.
        apply IHl. intros f [<- | Hf]; apply H; [now left | right; now right]. }
  split.
  - intros H0 f txt Hf Hb Ht.
    assert (He : existsb (touches keys k) files = false).
    { destruct (existsb (touches keys k) files) eqn:E; [|reflexivity].
      assert (0 < count_of k (scan_for_usage keys files)) by (apply Hp; auto). lia. }
    apply (touches_false keys k f Hk); [|exact Hb | exact Ht].
    now apply Hall.
  - intros H.
    assert (He : existsb (touches keys k) files = false).
    { apply Hall. intros f Hf. apply (touches_false keys k f Hk).
      intros txt. now apply H. }
    destruct (Z.eq_dec (count_of k (scan_for_usage keys files)) 0) as [E | E];
      [exact E|].
    assert (Hpos : 0 < count_of k (scan_for_usage keys files)) by lia.
    apply Hp in Hpos as [_ Hpos]. congruence.
Qed.

Lemma unused_iff_untouched_witness :
  count_of (str "b") (scan_for_usage [str "a"; str "b"] [doc_of "x.tex" "\cite{a}"]) = 0
  <-> forall f txt,
        In f [doc_of "x.tex" "\cite{a}"] -> d_is_bib f = false -> d_text f = Some txt ->
        nocite_marks [str "a"; str "b"] (str "b") txt = false /\ ~ occurs (str "b") txt.
Proof.
  apply (unused_iff_untouched [str "a"; str "b"] [doc_of "x.tex" "\cite{a}"] (str "b")).
  simpl; tauto.
Defined.

(** X6: a known key whose text is part of a longer text that occurs in a
    scanned file, such as another key that is cited there, is counted as
    used. *)
Theorem key_inside_cited_text_is_used
  (keys : list text) (files : list doc) (f : doc) (txt k longer : text)
  (Hf : In f files) (Hb : d_is_bib f = false) (Ht : d_text f = Some txt)
  (Hk : In k keys) (Hin : occurs k longer) (Hl : occurs longer txt) :
  0 < count_of k (scan_for_usage keys files).
Proof.
  apply (touches_used keys k files f Hf); [|exact Hk].
  unfold touches. rewrite Hb, Ht. cbn [negb andb].
  apply orb_true_iff. right. apply andb_true_iff.
  split; [now apply mem_text_In|].
  apply key_found_occurs. eapply occurs_trans; eauto.
Qed.

Lemma key_inside_cited_text_is_used_witness :
  0 < count_of (str "smith2020")
        (scan_for_usage [str "smith2020"; str "smith2020b"]
           [doc_of "x.tex" "\cite{smith2020b}"]).
Proof.
  apply (key_inside_cited_text_is_used [str "smith2020"; str "smith2020b"]
           [doc_of "x.tex" "\cite{smith2020b}"] (doc_of "x.tex" "\cite{smith2020b}")
           (str "\cite{smith2020b}") (str "smith2020") (str "smith2020b")).
  - simpl; tauto.
  - reflexivity.
  - reflexivity.
  - simpl; tauto.
  - exists [], (str "b"). reflexivity.
  - exists (str "\cite{"), (str "}"). reflexivity.
Defined.

(* ================================================================== *)
(** ** Files that are skipped *)
(* ================================================================== *)

Lemma scan_file_skipped keys kp (st : scan_state) f :
  scanned f = false -> scan_file keys kp st f = st.
Proof.
  unfold scanned, scan_file. destruct (d_is_bib f); [reflexivity|].
  destruct (d_text f); [discriminate | reflexivity].
Qed.

(** X7: the bibliography itself and the files that cannot be read leave no
    trace: the scan gives what it gives without them. *)
Theorem skipped_files_leave_no_trace (keys : list text) (files : list doc) :
  scan_for_usage keys files = scan_for_usage keys (filter scanned files).
Proof.
  unfold scan_for_usage, scan_from.
  generalize (Dict.of_keys (fun _ : text => 0) keys, @nil (text * list occurrence)).
  induction files as [|f files IH]; intros st; [reflexivity|].
  cbn [filter fold_left]. destruct (scanned f) eqn:E.
  - cbn [fold_left]. apply IH.
  - rewrite scan_file_skipped by assumption. apply IH.
Qed.

(* ================================================================== *)
(** ** The keys of the counts, and the first lines of the report *)
(* ================================================================== *)

Section KeyOrder.
Import Dict DictFacts.

Lemma filter_filter_and {X : Type} (p q : X -> bool) (l : list X) :
  filter p (filter q l) = filter (fun x => q x && p x) l.
Proof.
  induction l as [|x l IH]; simpl; [reflexivity|].
  destruct (q x); simpl; [|exact IH]. destruct (p x); now rewrite IH.
Qed.

Lemma mem_text_app (k : text) (l1 l2 : list text) :
  mem_text k (l1 ++ l2) = mem_text k l1 || mem_text k l2.
Proof. unfold mem_text. apply existsb_app. Qed.

Lemma fold_set_keys {V : Type} (f : text -> V) (ks : list text) (d : list (text * V)) :
  keys (fold_left (fun d k => set k (f k) d) ks d) =
  keys d ++ filter (fun k => negb (mem_text k (keys d))) (first_occ ks).
Proof.
  revert d. induction ks as [|a ks IH]; intros d; cbn [fold_left first_occ filter].
  - now rewrite app_nil_r.
  - rewrite IH. destruct (mem_text a (keys d)) eqn:E; cbn [negb].
    + rewrite keys_set_present by now apply mem_text_In.
      f_equal. rewrite filter_filter_and. apply filter_ext_in.
      intros y _. destruct (text_eqb y a) eqn:Ey; [|reflexivity].
      apply text_eqb_eq in Ey. subst y. now rewrite E.
    + rewrite keys_set_absent by now apply mem_text_not_In.
      rewrite <- app_assoc. f_equal. cbn [app]. f_equal.
      rewrite filter_filter_and. apply filter_ext.
      intros y. rewrite mem_text_app. unfold mem_text at 2. cbn [existsb].
      rewrite orb_false_r.
      now destruct (text_eqb y a), (mem_text y (keys d)).
Qed.

Lemma of_keys_keys {V : Type} (f : text -> V) (ks : list text) :
  keys (of_keys f ks) = first_occ ks.
Proof.
  unfold of_keys. rewrite fold_set_keys. cbn [keys map app].
  induction (first_occ ks) as [|x l IH]; [reflexivity|].
  cbn [filter]. unfold mem_text at 1. cbn [existsb negb]. now f_equal.
Qed.

Lemma mark_used_keys k (u : list (text * Z)) : keys (mark_used k u) = keys u.
Proof.
  unfold mark_used. destruct (get k u) eqn:E; [|reflexivity].
  apply keys_set_present. eapply get_Some_keys; eauto.
Qed.

Lemma incr_keys k (u : list (text * Z)) : keys (incr k u) = keys u.
Proof.
  unfold incr. destruct (get k u) eqn:E; [|reflexivity].
  apply keys_set_present. eapply get_Some_keys; eauto.
Qed.

Lemma fold_keys_same {B : Type} (f : list (text * Z) -> B -> list (text * Z)) :
  (forall u b, keys (f u b) = keys u) ->
  forall l u, keys (fold_left f l u) = keys u.
Proof.
  intros H. induction l as [|b l IH]; intros u; simpl; [reflexivity|].
  now rewrite IH, H.
Qed.

Lemma nocite_scan_keys ks txt (u : list (text * Z)) :
  keys (nocite_scan ks txt u) = keys u.
Proof.
  unfold nocite_scan. apply fold_keys_same. intros u' arg.
  unfold nocite_step. destruct (text_eqb (strip arg) (str "*"));
    apply fold_keys_same; intros; apply mark_used_keys.
Qed.

Lemma generic_search_keys kp txt (u : list (text * Z)) :
  keys (generic_search kp txt u) = keys u.
Proof.
  unfold generic_search. apply fold_keys_same. intros u' b.
  destruct (re_found false (snd b) txt); [apply incr_keys | reflexivity].
Qed.

Lemma scan_file_keys ks kp (st : scan_state) f :
  keys (fst (scan_file ks kp st f)) = keys (fst st).
Proof.
  unfold scan_file. destruct (d_is_bib f); [reflexivity|].
  destruct (d_text f); [|reflexivity].
  cbn [fst]. now rewrite generic_search_keys, nocite_scan_keys.
Qed.

Lemma scan_from_keys ks (files : list doc) (st : scan_state) :
  keys (fst (scan_from ks st files)) = keys (fst st).
Proof.
  unfold scan_from. revert st. induction files as [|f files IH]; intros st.
  - reflexivity.
  - cbn [fold_left]. rewrite IH. apply scan_file_keys.
Qed.

Lemma scan_for_usage_keys ks (files : list doc) :
  keys (fst (scan_for_usage ks files)) = first_occ ks.
Proof.
  unfold scan_for_usage. rewrite scan_from_keys. cbn [fst]. apply of_keys_keys.
Qed.

End KeyOrder.

Lemma In_first_occ (l : list text) (x : text) : In x (first_occ l) <-> In x l.
Proof.
  induction l as [|a l IH]; simpl; [tauto|].
  rewrite filter_In, IH, negb_true_iff, text_eqb_neq.
  destruct (list_eq_dec ascii_dec a x) as [-> | Hne]; [tauto|].
  split; [tauto|]. intros [H | H]; [contradiction | right; split; congruence].
Qed.

Lemma NoDup_filter {X : Type} (p : X -> bool) (l : list X) :
  NoDup l -> NoDup (filter p l).
Proof.
  induction 1 as [|x l Hnin Hnd IH]; simpl; [constructor|].
  destruct (p x); [|exact IH]. constructor; [|exact IH].
  rewrite filter_In. tauto.
Qed.

Lemma NoDup_first_occ (l : list text) : NoDup (first_occ l).
Proof.
  induction l as [|a l IH]; simpl; constructor.
  - rewrite filter_In, negb_true_iff, text_eqb_neq. tauto.
  - now apply NoDup_filter.
Qed.

Lemma filter_length_le' {X : Type} (p : X -> bool) (l : list X) :
  (length (filter p l) <= length l)%nat.
Proof. induction l as [|x l IH]; simpl; [lia|]. destruct (p x); simpl; lia. Qed.

Lemma first_occ_length (l : list text) : (length (first_occ l) <= length l)%nat.
Proof.
  induction l as [|a l IH]; simpl; [lia|].
  pose proof (filter_length_le' (fun y => negb (text_eqb y a)) (first_occ l)). lia.
Qed.

Lemma first_occ_NoDup_id (l : list text) : NoDup l -> first_occ l = l.
Proof.
  induction 1 as [|a l Hnin Hnd IH]; simpl; [reflexivity|].
  rewrite IH. f_equal.
  clear IH Hnd. induction l as [|b l IHl]; simpl; [reflexivity|].
  destruct (text_eqb b a) eqn:E.
  - apply text_eqb_eq in E. subst. exfalso. apply Hnin. now left.
  - simpl. f_equal. apply IHl. intros H. apply Hnin. now right.
Qed.

(** X8: the counts the scan returns list every distinct key once, in the
    order the keys are first met in the bibliography, whatever the
    documents contain: no [\nocite] and no citation command adds a key. *)
Theorem usage_keys_in_bibliography_order (keys : list text) (files : list doc) :
  Dict.keys (fst (scan_for_usage keys files)) = first_occ keys
  /\ NoDup (first_occ keys)
  /\ (forall k, In k (first_occ keys) <-> In k keys)
  /\ (NoDup keys -> Dict.keys (fst (scan_for_usage keys files)) = keys).
Proof.
  split; [apply scan_for_usage_keys|].
  split; [apply NoDup_first_occ|].
  split; [intros k; apply In_first_occ|].
  intros H. rewrite scan_for_usage_keys. now apply first_occ_NoDup_id.
Qed.

Lemma pos_zero_partition (used : list (text * Z)) :
  (forall kc, In kc used -> 0 <= snd kc) ->
  (length (filter (fun kc : text * Z => (0 <? snd kc)%Z) used)
   + length (filter (fun kc : text * Z => (snd kc =? 0)%Z) used) = length used)%nat.
Proof.
  induction used as [|[k c] used IH]; intros H; simpl; [reflexivity|].
  assert (Hc : 0 <= c) by (apply (H (k, c)); now left).
  assert (IH' := IH (fun kc Hin => H kc (or_intror Hin))).
  destruct (0 <? c) eqn:E1, (c =? 0) eqn:E2; simpl; lia.
Qed.

Lemma scan_values_nonneg keys (files : list doc) kc :
  In kc (fst (scan_for_usage keys files)) -> 0 <= snd kc.
Proof.
  destruct kc as [k c]. intros Hin.
  apply DictFacts.In_get in Hin.
  - pose proof (count_of_scan_nonneg keys k files) as Hn.
    unfold count_of in Hn. now rewrite Hin in Hn.
  - fold (@Dict.keys Z (fst (scan_for_usage keys files))).
    rewrite scan_for_usage_keys. apply NoDup_first_occ.
Qed.

Lemma filter_full_length {X : Type} (p : X -> bool) (l : list X) :
  length (filter p l) = length l -> forall x, In x l -> p x = true.
Proof.
  induction l as [|a l IH]; simpl; intros H x Hx; [destruct Hx|].
  pose proof (filter_length_le' p l) as Hle.
  destruct (p a) eqn:E; simpl in H.
  - destruct Hx as [<- | Hx]; [exact E | apply IH; [lia | exact Hx]].
  - lia.
Qed.

Lemma first_occ_full_length (l : list text) :
  length (first_occ l) = length l -> NoDup l.
Proof.
  induction l as [|a l IH]; simpl; intros H; [constructor|].
  pose proof (filter_length_le' (fun y => negb (text_eqb y a)) (first_occ l)) as H1.
  pose proof (first_occ_length l) as H2.
  constructor.
  - intros Hin. apply In_first_occ in Hin.
    assert (Hf : length (filter (fun y => negb (text_eqb y a)) (first_occ l))
                 = length (first_occ l)) by lia.
    pose proof (filter_full_length _ _ Hf a Hin) as Ha.
    cbn beta in Ha. now rewrite text_eqb_refl in Ha.
  - apply IH. lia.
Qed.

(** X9: the first three lines of the report: the total is the number of
    entries, and the numbers of used and of unused keys add up to the
    number of distinct keys, which is never more than the total and is the
    total exactly when no key is repeated. *)
Theorem report_first_lines
  (keys : list text) (entries : list bib_entry) (files : list doc) :
  exists u n : nat,
    firstn 3 (report keys entries (scan_for_usage keys files))
    = [ str "Total bib entries: " ++ show_nat (length keys);
        str "Used entries: " ++ show_nat u;
        str "Unused entries: " ++ show_nat n ]
    /\ (u + n = length (first_occ keys))%nat
    /\ (u + n <= length keys)%nat
    /\ ((u + n = length keys)%nat <-> NoDup keys).
Proof.
  set (used := fst (scan_for_usage keys files)).
  exists (length (map fst (filter (fun kc : text * Z => (0 <? snd kc)%Z) used))),
         (length (map fst (filter (fun kc : text * Z => (snd kc =? 0)%Z) used))).
  assert (Hsum : (length (map fst (filter (fun kc : text * Z => (0 <? snd kc)%Z) used))
                  + length (map fst (filter (fun kc : text * Z => (snd kc =? 0)%Z) used))
                  = length (first_occ keys))%nat).
  { rewrite !length_map, pos_zero_partition
      by (intros kc; apply scan_values_nonneg).
    rewrite <- (scan_for_usage_keys keys files). unfold Dict.keys.
    now rewrite length_map. }
  split; [reflexivity|].
  split; [exact Hsum|].
  split.
  - rewrite Hsum. apply first_occ_length.
  - rewrite Hsum. split.
    + apply first_occ_full_length.
    + intros Hnd. now rewrite first_occ_NoDup_id.
Qed.

(* ================================================================== *)
(** ** Duplicate keys *)
(* ================================================================== *)

Section Counter.
Import Dict DictFacts.

Lemma count_text_cons (k a : text) (l : list text) :
  count_text k (a :: l) = ((if text_eqb k a then 1 else 0) + count_text k l)%nat.
Proof. unfold count_text. simpl. now destruct (text_eqb k a). Qed.

Lemma counter_fold_get (k : text) (l : list text) (d : list (text * Z)) :
  get k (fold_left
           (fun d k' => match get k' d with
                        | Some c => set k' (c + 1) d
                        | None => set k' 1 d
                        end) l d)
  = match get k d with
    | Some v => Some (v + Z.of_nat (count_text k l))
    | None => if Nat.eqb (count_text k l) 0 then None
              else Some (Z.of_nat (count_text k l))
    end.
Proof.
  revert d. induction l as [|a l IH]; intros d.
  - cbn. destruct (get k d); [f_equal; lia | reflexivity].
  - cbn [fold_left]. rewrite IH, count_text_cons.
    destruct (text_eqb k a) eqn:E.
    + apply text_eqb_eq in E. subst a.
      destruct (get k d) as [v|]; rewrite get_set_same; cbn [Nat.add Nat.eqb];
        f_equal; lia.
    + assert (G : get k (match get a d with
                         | Some c => set a (c + 1) d
                         | None => set a 1 d
                         end) = get k d).
      { destruct (get a d); now rewrite get_set, E. }
      rewrite G. reflexivity.
Qed.

Lemma counter_get (k : text) (l : list text) :
  get k (counter l) =
  if Nat.eqb (count_text k l) 0 then None else Some (Z.of_nat (count_text k l)).
Proof. unfold counter. now rewrite counter_fold_get. Qed.

Lemma counter_NoDup (l : list text) : NoDup (keys (counter l)).
Proof.
  unfold counter.
  assert (H : forall d : list (text * Z), NoDup (keys d) ->
    NoDup (keys (fold_left
      (fun d k' => match get k' d with
                   | Some c => set k' (c + 1) d
                   | None => set k' 1 d
                   end) l d))).
  { induction l as [|a l IH]; intros d Hd; [exact Hd|].
    cbn [fold_left]. apply IH. destruct (get a d); now apply NoDup_keys_set. }
  apply H. constructor.
Qed.

Lemma NoDup_map_fst_filter {V : Type} (p : text * V -> bool) (d : list (text * V)) :
  NoDup (map fst d) -> NoDup (map fst (filter p d)).
Proof.
  induction d as [|[k v] d IH]; simpl; intros H; [constructor|].
  inversion H as [|? ? Hnin Hnd]; subst.
  destruct (p (k, v)); [|now apply IH].
  simpl. constructor; [|now apply IH].
  intros Hin. apply Hnin. apply in_map_iff in Hin as [[k' v'] [Hk Hin]].
  apply filter_In in Hin as [Hin _]. simpl in Hk. subst k'.
  change k with (fst (k, v')). now apply in_map.
Qed.

End Counter.

(** X10: the keys reported as duplicates are exactly the keys that two or more
    entries have, and each is reported once. *)
Theorem dup_keys_are_repeated_keys (keys : list text) :
  (forall k, In k (dup_keys_of keys) <-> (2 <= count_text k keys)%nat)
  /\ NoDup (dup_keys_of keys).
Proof.
  split.
  - intros k. unfold dup_keys_of. rewrite in_map_iff. split.
    + intros [[k' c] [Hk Hin]]. simpl in Hk. subst k'.
      apply filter_In in Hin as [Hin Hc]. simpl in Hc. apply Z.ltb_lt in Hc.
      apply (DictFacts.In_get k c _ (counter_NoDup keys)) in Hin.
      rewrite counter_get in Hin.
      destruct (Nat.eqb (count_text k keys) 0); [discriminate|].
      injection Hin as <-. lia.
    + intros H. exists (k, Z.of_nat (count_text k keys)). split; [reflexivity|].
      apply filter_In. split.
      * apply (DictFacts.In_get _ _ _ (counter_NoDup keys)).
        rewrite counter_get.
        destruct (Nat.eqb (count_text k keys) 0) eqn:E; [|reflexivity].
        apply Nat.eqb_eq in E. lia.
      * simpl. apply Z.ltb_lt. lia.
  - unfold dup_keys_of. apply NoDup_map_fst_filter. apply counter_NoDup.
Qed.

(* ================================================================== *)
(** ** Which files are found *)
(* ================================================================== *)

Lemma lower_char_idem (c : ascii) : lower_char (lower_char c) = lower_char c.
Proof. destruct c as [[] [] [] [] [] [] [] []]; vm_compute; reflexivity. Qed.

Lemma lower_char_not_R (c : ascii) : lower_char c <> "R"%char.
Proof. destruct c as [[] [] [] [] [] [] [] []]; vm_compute; discriminate. Qed.

Lemma lower_idem (s : text) : lower (lower s) = lower s.
Proof.
  unfold lower. rewrite map_map. apply map_ext. intros c. apply lower_char_idem.
Qed.

Lemma lower_no_R (s : text) : ~ In "R"%char (lower s).
Proof.
  unfold lower. rewrite in_map_iff. intros [c [Hc _]].
  now apply lower_char_not_R in Hc.
Qed.

(** X11: with the default extensions a file is found exactly when its suffix,
    lowered, is [.tex], [.md] or [.sty]: the case of the suffix does not
    matter for these three, and the files are found in the order of the
    traversal. *)
Theorem default_discovery_by_lowered_suffix (tree : list doc) :
  find_files tree None
  = filter (fun p => mem_text (lower (suffix (d_path p)))
                              [str ".tex"; str ".md"; str ".sty"]) tree
  /\ find_files [doc_of "A.TEX" "x"; doc_of "dir.tex/notes" "x"; doc_of ".tex" "x";
                 doc_of "b.Sty" "x"] None
     = [doc_of "A.TEX" "x"; doc_of "b.Sty" "x"].
Proof.
  split; [|vm_compute; reflexivity].
  unfold find_files. apply filter_ext. intros p.
  pose proof (lower_no_R (suffix (d_path p))) as HR.
  revert HR. generalize (lower (suffix (d_path p))) as s. intros s HR.
  unfold default_exts, mem_text. cbn [existsb].
  destruct (text_eqb s (str ".Rmd")) eqn:E; [|now rewrite ?orb_false_r].
  exfalso. apply text_eqb_eq in E. subst s. apply HR. vm_compute. tauto.
Qed.

Lemma existsb_filter_eq (x : text) (q : text -> bool) (l : list text) :
  (forall e, text_eqb x e = true -> q e = true) ->
  existsb (text_eqb x) (filter q l) = existsb (text_eqb x) l.
Proof.
  intros H. induction l as [|e l IH]; simpl; [reflexivity|].
  destruct (q e) eqn:Eq; simpl; [now rewrite IH|].
  destruct (text_eqb x e) eqn:Ex; [|exact IH].
  apply H in Ex. congruence.
Qed.

(** X12: the suffix of a file is lowered before it is compared, the given
    extensions are not: an extension with a capital letter in it finds no
    file, and the files found are those the lower-case extensions find. *)
Theorem extensions_with_capitals_find_nothing (tree : list doc) (exts : list text) :
  find_files tree (Some exts)
  = find_files tree (Some (filter (fun e => text_eqb (lower e) e) exts))
  /\ (forall e, lower (dotted e) <> dotted e ->
                find_files tree (exts_of_args (Some [e])) = []).
Proof.
  assert (H : forall l, find_files tree (Some l)
              = find_files tree (Some (filter (fun e => text_eqb (lower e) e) l))).
  { intros l. unfold find_files. apply filter_ext. intros p. unfold mem_text.
    symmetry. apply existsb_filter_eq.
    intros e He. apply text_eqb_eq in He. subst e.
    rewrite lower_idem. apply text_eqb_refl. }
  split; [apply H|].
  intros e He. cbn [exts_of_args map]. rewrite H. cbn [filter].
  apply text_eqb_neq in He. rewrite He.
  unfold find_files. clear H. induction tree as [|p tree IH]; [reflexivity|].
  cbn [filter]. unfold mem_text at 1. cbn [existsb]. exact IH.
Qed.

Lemma dotted_idem (e : text) : dotted (dotted e) = dotted e.
Proof.
  unfold dotted. destruct (startswith (str ".") e) eqn:E.
  - now rewrite E.
  - reflexivity.
Qed.

(** X13: an extension is used with a leading dot whether it is given with one
    or not: [--ext tex] and [--ext .tex] find the same files. *)
Theorem extension_dot_is_optional (tree : list doc) (l : list text) :
  find_files tree (exts_of_args (Some (map dotted l)))
  = find_files tree (exts_of_args (Some l))
  /\ (forall e, startswith (str ".") (dotted e) = true).
Proof.
  split.
  - destruct l as [|e l]; [reflexivity|].
    cbn [exts_of_args map]. rewrite dotted_idem. do 2 f_equal. f_equal.
    rewrite map_map. apply map_ext. intros x. apply dotted_idem.
  - intros e. unfold dotted. destruct (startswith (str ".") e) eqn:E; [exact E|].
    reflexivity.
Qed.

(* ================================================================== *)
(** ** How a run ends *)
(* ================================================================== *)

(** X14: how a run ends depends on the bibliography file alone: when it
    does not exist, the error line and code 2; when it exists and reading
    it raises, the traceback and code 1; when it can be read, code 0,
    something on the output and nothing on the error stream, whatever the
    bibliography and the documents contain. *)
Theorem run_ends_by_bibliography_state
  (bib_path : text) (bib : bib_file) (ext : option (list text)) (tree : list doc) :
  (bib = Absent ->
   main bib_path bib ext tree
   = Outcome [] [str "Error: bib file not found: " ++ bib_path] 2)
  /\ (forall traceback, bib = Unreadable traceback ->
      main bib_path bib ext tree = Outcome [] [traceback] 1)
  /\ (forall bib_text, bib = Readable bib_text ->
      exit_code (main bib_path bib ext tree) = 0
      /\ stderr (main bib_path bib ext tree) = []
      /\ stdout (main bib_path bib ext tree) <> [])
  /\ (exit_code (main bib_path bib ext tree) = 0
      \/ exit_code (main bib_path bib ext tree) = 1
      \/ exit_code (main bib_path bib ext tree) = 2).
Proof.
  split; [intros ->; reflexivity|].
  split; [intros traceback ->; reflexivity|].
  split.
  - intros bib_text ->. unfold main.
    destruct (extract_bib_keys bib_text) as [|e entries].
    + cbn. repeat split. discriminate.
    + cbn [exit_code stderr stdout]. repeat split.
      unfold report. cbn [app]. discriminate.
  - destruct bib as [|traceback|bib_text]; cbn; auto.
    destruct (extract_bib_keys bib_text); cbn; auto.
Qed.

(* ================================================================== *)
(** ** Fields of an entry *)
(* ================================================================== *)

Lemma lower_char_nl (c : ascii) : lower_char c = nl -> c = nl.
Proof.
  destruct c as [[] [] [] [] [] [] [] []]; vm_compute; intros H;
    first [reflexivity | discriminate].
Qed.

Lemma is_suffix_In (c : ascii) (s' s : text) : is_suffix (c :: s') s -> In c s.
Proof. intros [p ->]. apply in_or_app. right. now left. Qed.

Lemma seq_list_last_lit ic (l : list regex) (a : ascii) :
  forall s g (K : cont) x,
    rmatch ic (seq_list (l ++ [Lit a])) s g K = Some x ->
    exists c s', is_suffix (c :: s') s /\ lit_match ic a c = true.
Proof.
  induction l as [|r l IH]; intros s g K x H.
  - cbn in H. destruct s as [|c s]; [discriminate|].
    destruct (lit_match ic a c) eqn:E; [|discriminate].
    exists c, s. split; [apply is_suffix_refl | exact E].
  - change ((r :: l) ++ [Lit a]) with (r :: (l ++ [Lit a])) in H.
    rewrite rmatch_seq_cons in H.
    apply rmatch_calls_cont in H as [s1 [g1 [Hs1 H]]].
    apply IH in H as [c [s' [Hs' Hc]]].
    exists c, s'. split; [eapply is_suffix_trans; eauto | exact Hc].
Qed.

Lemma re_search_inv ic r (s : text) (f : found) :
  re_search ic r s = Some f ->
  exists s', is_suffix s' s /\ match_at ic r s' = Some (f_rest f, f_groups f).
Proof.
  revert f. induction s as [|c s IH]; intros f H; cbn [re_search] in H.
  - destruct (match_at ic r []) as [[rest g]|] eqn:E; [|discriminate].
    injection H as <-. exists []. split; [apply is_suffix_refl | exact E].
  - destruct (match_at ic r (c :: s)) as [[rest g]|] eqn:E.
    + injection H as <-. exists (c :: s). split; [apply is_suffix_refl | exact E].
    + destruct (re_search ic r s) as [f'|]; [|discriminate].
      injection H as <-. destruct (IH f' eq_refl) as [s' [Hs' Hm]].
      exists s'. split; [|exact Hm].
      eapply is_suffix_trans; [exact Hs' | apply is_suffix_cons].
Qed.

Lemma field_needs_line_feed (name : string) (body : text) :
  ~ In nl body -> extract_field (field_pat name) body = None.
Proof.
  intros Hnl. unfold extract_field.
  destruct (re_search true (field_pat name) body) as [f|] eqn:E; [|reflexivity].
  exfalso. apply re_search_inv in E as [s' [Hs' Hm]].
  unfold match_at, field_pat in Hm.
  change [lits name; Star true CSpace; Lit "="; Star true CSpace;
          Cls (COneOf ["{"%char; dquote]); Group 1 (Star false CAny);
          Cls (COneOf ["}"%char; dquote]); Star true CSpace; Opt (Lit ","); Lit nl]
    with ([lits name; Star true CSpace; Lit "="; Star true CSpace;
           Cls (COneOf ["{"%char; dquote]); Group 1 (Star false CAny);
           Cls (COneOf ["}"%char; dquote]); Star true CSpace; Opt (Lit ",")]
            ++ [Lit nl]) in Hm.
  apply seq_list_last_lit in Hm as [c [s2 [Hs2 Hc]]].
  unfold lit_match in Hc. apply Ascii.eqb_eq in Hc.
  symmetry in Hc. change (lower_char nl) with nl in Hc.
  apply lower_char_nl in Hc. subst c.
  apply Hnl. eapply is_suffix_In. eapply is_suffix_trans; eauto.
Qed.

(** X15: the title and the DOI of an entry are found only before a line feed:
    an entry whose body, stripped, is on one line has neither. *)
Theorem one_line_body_has_no_fields (bib_text : text) (e : bib_entry)
  (He : In e (extract_bib_keys bib_text)) (Hnl : ~ In nl (e_body e)) :
  e_title e = None /\ e_doi e = None.
Proof.
  unfold extract_bib_keys in He. apply in_map_iff in He as [m [<- _]].
  unfold entry_of_match in *. cbn [e_title e_doi e_body] in *.
  unfold title_pat, doi_pat. now rewrite !field_needs_line_feed.
Qed.

Lemma one_line_body_has_no_fields_witness :
  e_title (hd (BibEntry [] [] None None []) (extract_bib_keys bib_one_line_each)) = None
  /\ e_doi (hd (BibEntry [] [] None None []) (extract_bib_keys bib_one_line_each)) = None.
Proof.
  apply (one_line_body_has_no_fields bib_one_line_each
           (hd (BibEntry [] [] None None []) (extract_bib_keys bib_one_line_each))).
  - vm_compute. tauto.
  - vm_compute. intuition discriminate.
Defined.

Lemma rmatch_lits_prefix ic (k s : text) g (K : cont) :
  rmatch ic (re_escape k) (k ++ s) g K = K s g.
Proof.
  unfold re_escape. induction k as [|a k IH]; [reflexivity|].
  cbn [map]. rewrite rmatch_seq_cons. cbn [rmatch app].
  assert (E : lit_match ic a a = true).
  { unfold lit_match. destruct ic; apply Ascii.eqb_refl. }
  rewrite E. apply IH.
Qed.

Lemma star_greedy_all {A : Type} (p : ascii -> bool) (ws s : text)
  (K : text -> option A) (x : A) :
  forallb p ws = true -> K s = Some x ->
  match s with c :: _ => p c = false | [] => True end ->
  star_greedy p (ws ++ s) K = Some x.
Proof.
  intros Hws HK Hs. induction ws as [|a ws IH]; cbn [app].
  - destruct s as [|c s]; cbn [star_greedy]; [exact HK|]. now rewrite Hs.
  - cbn [forallb] in Hws. apply andb_true_iff in Hws as [Ha Hws].
    cbn [star_greedy]. rewrite Ha. now rewrite (IH Hws).
Qed.

Lemma star_lazy_skip {A : Type} (p : ascii -> bool) (v s : text)
  (K : text -> option A) (x : A) :
  forallb p v = true ->
  (forall v1 c v2, v = v1 ++ c :: v2 -> K (c :: v2 ++ s) = None) ->
  K s = Some x ->
  star_lazy p (v ++ s) K = Some x.
Proof.
  intros Hp Hfail HK. induction v as [|c v IH]; cbn [app].
  - destruct s; cbn [star_lazy]; now rewrite HK.
  - cbn [forallb] in Hp. apply andb_true_iff in Hp as [Hc Hv].
    cbn [star_lazy]. rewrite (Hfail [] c v eq_refl), Hc.
    apply IH; [exact Hv|].
    intros v1 c' v2 ->. apply (Hfail (c :: v1) c' v2). reflexivity.
Qed.

(** X16: a title that is the first field of a body, written in braces with a
    comma and a line feed after the closing brace, and with no closing
    brace and no double quote in it, is extracted as it is, stripped. *)
Theorem first_field_title_extracted (ws1 ws2 v rest : text)
  (H1 : forallb is_space ws1 = true) (H2 : forallb is_space ws2 = true)
  (Hv : forallb (fun c => negb (mem_ascii c ["}"%char; dquote])) v = true) :
  extract_field title_pat
    (str "title" ++ ws1 ++ "="%char :: ws2 ++ "{"%char :: v
       ++ "}"%char :: ","%char :: nl :: rest)
  = Some (strip v).
Proof.
  set (tail := "}"%char :: ","%char :: nl :: rest).
  assert (Hm : match_at true title_pat
                 (str "title" ++ ws1 ++ "="%char :: ws2 ++ "{"%char :: v ++ tail)
               = Some (rest, [(1%nat, v)])).
  { unfold match_at, title_pat, field_pat.
    rewrite rmatch_seq_cons.
    change (lits "title") with (re_escape (str "title")).
    rewrite rmatch_lits_prefix.
    rewrite rmatch_seq_cons. cbn [rmatch].
    apply star_greedy_all; [exact H1 | | reflexivity].
    rewrite rmatch_seq_cons. cbn [rmatch].
    change (lit_match true "=" "=") with true. cbn iota.
    rewrite rmatch_seq_cons. cbn [rmatch].
    apply star_greedy_all; [exact H2 | | reflexivity].
    rewrite rmatch_seq_cons. cbn [rmatch].
    change (cls_match (COneOf ["{"%char; dquote]) "{") with true. cbn iota.
    rewrite rmatch_seq_cons, rmatch_group. cbn [rmatch].
    apply star_lazy_skip.
    - clear. induction v; [reflexivity | exact IHv].
    - intros v1 c v2 ->. rewrite rmatch_seq_cons. cbn [rmatch].
      rewrite forallb_app in Hv. apply andb_true_iff in Hv as [_ Hv].
      cbn [forallb] in Hv. apply andb_true_iff in Hv as [Hc _].
      apply negb_true_iff in Hc. cbn [cls_match]. now rewrite Hc.
    - unfold tail. rewrite consumed_app. reflexivity. }
  unfold extract_field.
  assert (Hs : re_search true title_pat
                 (str "title" ++ ws1 ++ "="%char :: ws2 ++ "{"%char :: v ++ tail)
               = Some (Found []
                         (consumed (str "title" ++ ws1 ++ "="%char :: ws2
                                      ++ "{"%char :: v ++ tail) rest)
                         [(1%nat, v)] rest)).
  { change (str "title" ++ ws1 ++ "="%char :: ws2 ++ "{"%char :: v ++ tail)
      with ("t"%char :: (str "itle" ++ ws1 ++ "="%char :: ws2 ++ "{"%char :: v ++ tail))
      at 1.
    cbn [re_search].
    change ("t"%char :: (str "itle" ++ ws1 ++ "="%char :: ws2 ++ "{"%char :: v ++ tail))
      with (str "title" ++ ws1 ++ "="%char :: ws2 ++ "{"%char :: v ++ tail).
    now rewrite Hm. }
  rewrite Hs. reflexivity.
Qed.

Lemma first_field_title_extracted_witness :
  extract_field title_pat
    (str "title" ++ str " " ++ "="%char :: str " " ++ "{"%char :: str " A {Study"
       ++ "}"%char :: ","%char :: nl :: str "  year = 2020")
  = Some (strip (str " A {Study")).
Proof.
  apply (first_field_title_extracted (str " ") (str " ") (str " A {Study")
           (str "  year = 2020")); reflexivity.
Defined.

(* ================================================================== *)
(** ** Type and key of an entry *)
(* ================================================================== *)

Lemma lit_inv ic a s g (K : cont) x :
  rmatch ic (Lit a) s g K = Some x ->
  exists c s', s = c :: s' /\ lit_match ic a c = true /\ K s' g = Some x.
Proof.
  cbn [rmatch]. destruct s as [|c s]; [discriminate|].
  destruct (lit_match ic a c) eqn:E; [|discriminate]. eauto.
Qed.

Lemma star_inv ic b cl s g (K : cont) x :
  rmatch ic (Star b cl) s g K = Some x ->
  exists ws s', s = ws ++ s' /\ forallb (cls_match cl) ws = true /\ K s' g = Some x.
Proof.
  cbn [rmatch]. destruct b; intros H.
  - now apply star_greedy_inv in H.
  - now apply star_lazy_inv in H.
Qed.

Lemma plus_group_inv ic n cl s g (K : cont) x :
  rmatch ic (Group n (Plus true cl)) s g K = Some x ->
  exists w s',
    s = w ++ s' /\ w <> [] /\ forallb (cls_match cl) w = true
    /\ K s' ((n, w) :: g) = Some x.
Proof.
  rewrite rmatch_group. unfold Plus. cbn [rmatch].
  destruct s as [|c s]; [discriminate|].
  destruct (cls_match cl c) eqn:Ec; [|discriminate].
  intros H. apply star_greedy_inv in H as [ws [s' [-> [Hws H]]]].
  exists (c :: ws), s'. split; [reflexivity|]. split; [discriminate|].
  split; [cbn [forallb]; now rewrite Ec|].
  change (c :: ws ++ s') with ((c :: ws) ++ s') in H.
  now rewrite consumed_app in H.
Qed.

Lemma lookahead_entry_end_inv (s : text) (g : caps) (x : text * caps) :
  rmatch true (Look (Alt (Seq (Lit nl) (Lit "@")) EndZ)) s g
    (fun s' g' => Some (s', g')) = Some x ->
  x = (s, g).
Proof.
  cbn [rmatch].
  destruct s as [|c [|c' s]]; cbn iota;
    repeat match goal with
           | |- context [if ?b then _ else _] => destruct b
           end;
    intros H; first [discriminate | now injection H as <-].
Qed.

Lemma entry_pat_inv (s rest : text) (g : caps) :
  match_at true entry_pat s = Some (rest, g) ->
  exists t k b,
    g = [(3%nat, b); (2%nat, k); (1%nat, t)]
    /\ t <> [] /\ forallb is_word t = true
    /\ k <> [] /\ forallb (cls_match (CNoneOf [","%char; nl; cr])) k = true.
Proof.
  unfold match_at, entry_pat. intros H.
  rewrite rmatch_seq_cons in H.
  apply lit_inv in H as [c0 [s0 [-> [_ H]]]].
  rewrite rmatch_seq_cons in H.
  apply plus_group_inv in H as [t [s1 [-> [Ht [Hword H]]]]].
  rewrite rmatch_seq_cons in H.
  apply star_inv in H as [ws1 [s2 [-> [_ H]]]].
  rewrite rmatch_seq_cons in H.
  apply lit_inv in H as [c1 [s3 [-> [_ H]]]].
  rewrite rmatch_seq_cons in H.
  apply star_inv in H as [ws2 [s4 [-> [_ H]]]].
  rewrite rmatch_seq_cons in H.
  apply plus_group_inv in H as [k [s5 [-> [Hk [Hkey H]]]]].
  rewrite rmatch_seq_cons in H.
  apply star_inv in H as [ws3 [s6 [-> [_ H]]]].
  rewrite rmatch_seq_cons in H.
  apply lit_inv in H as [c2 [s7 [-> [_ H]]]].
  rewrite rmatch_seq_cons, rmatch_group in H.
  apply star_inv in H as [b [s8 [-> [_ H]]]].
  cbn [seq_list] in H.
  apply lookahead_entry_end_inv in H. injection H as -> ->.
  exists t, k, (consumed (b ++ s8) s8). repeat split; assumption.
Qed.

Lemma is_word_not_space (c : ascii) : is_word c = true -> is_space c = false.
Proof.
  destruct c as [[] [] [] [] [] [] [] []]; vm_compute; intros H;
    first [reflexivity | discriminate].
Qed.

Lemma lstrip_id (s : text) :
  (forall c, In c s -> is_space c = false) -> lstrip s = s.
Proof.
  destruct s as [|c s]; [reflexivity|]. intros H. simpl.
  now rewrite (H c (or_introl eq_refl)).
Qed.

Lemma strip_id (s : text) :
  (forall c, In c s -> is_space c = false) -> strip s = s.
Proof.
  intros H. unfold strip, rstrip. rewrite (lstrip_id s H).
  rewrite lstrip_id; [apply rev_involutive|].
  intros c Hc. apply H. now apply in_rev.
Qed.

Lemma occurs_In (a s : text) (c : ascii) : occurs a s -> In c a -> In c s.
Proof.
  intros [pre [post ->]] H. apply in_or_app. right. apply in_or_app. now left.
Qed.

(** X17: the type of an extracted entry is a non-empty word; its key has no
    comma and no line break in it. *)
Theorem extracted_type_and_key (bib_text : text) (e : bib_entry)
  (He : In e (extract_bib_keys bib_text)) :
  e_type e <> [] /\ forallb is_word (e_type e) = true
  /\ ~ In ","%char (e_key e) /\ ~ In nl (e_key e) /\ ~ In cr (e_key e).
Proof.
  unfold extract_bib_keys in He. apply in_map_iff in He as [m [<- Hm]].
  apply finditer_skip_In in Hm as [s' [rest [_ [Hm _]]]].
  apply entry_pat_inv in Hm as [t [k [b [Hg [Ht [Hword [Hk Hkey]]]]]]].
  unfold entry_of_match. cbn [e_type e_key]. unfold group_text. rewrite Hg.
  cbn [group Nat.eqb].
  assert (Hstrip : strip t = t).
  { apply strip_id. intros c Hc. apply is_word_not_space.
    rewrite forallb_forall in Hword. now apply Hword. }
  rewrite Hstrip.
  assert (Hno : forall c, In c [","%char; nl; cr] -> ~ In c (strip k)).
  { intros c Hc Hin. apply (occurs_In _ k c (strip_occurs k)) in Hin.
    rewrite forallb_forall in Hkey. apply Hkey in Hin. cbn [cls_match] in Hin.
    apply negb_true_iff in Hin. unfold mem_ascii in Hin.
    rewrite <- not_true_iff_false in Hin. apply Hin.
    apply existsb_exists. exists c. split; [exact Hc | apply Ascii.eqb_refl]. }
  repeat split; try assumption; apply Hno; simpl; tauto.
Qed.

Lemma extracted_type_and_key_witness :
  e_type (hd (BibEntry [] [] None None []) (extract_bib_keys bib_field_lines)) <> []
  /\ forallb is_word
       (e_type (hd (BibEntry [] [] None None []) (extract_bib_keys bib_field_lines)))
     = true
  /\ ~ In ","%char
         (e_key (hd (BibEntry [] [] None None []) (extract_bib_keys bib_field_lines)))
  /\ ~ In nl
         (e_key (hd (BibEntry [] [] None None []) (extract_bib_keys bib_field_lines)))
  /\ ~ In cr
         (e_key (hd (BibEntry [] [] None None []) (extract_bib_keys bib_field_lines))).
Proof.
  apply (extracted_type_and_key bib_field_lines
           (hd (BibEntry [] [] None None []) (extract_bib_keys bib_field_lines))).
  vm_compute. tauto.
Defined.

(* ================================================================== *)
(** ** How large a count is *)
(* ================================================================== *)

Lemma count_bounds_fold keys k (files : list doc) (v : Z) (n : nat) :
  mem_text k keys = true ->
  Z.of_nat n <= v <= Z.of_nat n + 1 ->
  let v' := fold_left (fun v f => file_effect keys k f v) files v in
  let n' := (n + length (filter (mentions k) files))%nat in
  Z.of_nat n' <= v' <= Z.of_nat n' + 1
  /\ (v = Z.of_nat n -> existsb (marks keys k) files = false -> v' = Z.of_nat n').
Proof.
  intros Hm. revert v n. induction files as [|f files IH]; intros v n Hv; cbn zeta.
  - cbn [fold_left filter length existsb]. rewrite Nat.add_0_r. split; [lia | auto].
  - cbn [fold_left filter existsb].
    assert (Hstep :
      Z.of_nat (n + (if mentions k f then 1 else 0))
        <= file_effect keys k f v
        <= Z.of_nat (n + (if mentions k f then 1 else 0)) + 1
      /\ (v = Z.of_nat n -> marks keys k f = false ->
          file_effect keys k f v = Z.of_nat (n + (if mentions k f then 1 else 0)))).
    { unfold file_effect, mentions, marks. rewrite Hm.
      destruct (d_is_bib f); cbn [negb andb]; [split; [lia | intros; lia]|].
      destruct (d_text f) as [txt|]; [|split; [lia | intros; lia]].
      destruct (nocite_marks keys k txt), (key_found k txt); cbn [andb];
        split; try lia; intros; try discriminate; lia. }
    destruct Hstep as [Hb He].
    specialize (IH (file_effect keys k f v)
                   (n + (if mentions k f then 1 else 0))%nat Hb).
    cbn zeta in IH. destruct IH as [IHb IHe].
    assert (Hlen : (n + length (if mentions k f
                                then f :: filter (mentions k) files
                                else filter (mentions k) files))%nat
                   = (n + (if mentions k f then 1 else 0)
                      + length (filter (mentions k) files))%nat).
    { destruct (mentions k f); cbn [length]; lia. }
    rewrite Hlen. split; [exact IHb|].
    intros Hv0 Hmarks. apply orb_false_iff in Hmarks as [Hf Hfs].
    apply IHe; [now apply He | exact Hfs].
Qed.

(** X18: the count of a known key is the number of scanned files in which its
    text occurs, or one more; it is that number when no [\nocite] marks
    the key.  The order of the files can change the count by one. *)
Theorem count_is_number_of_mentions
  (keys : list text) (files : list doc) (k : text) (Hk : In k keys) :
  Z.of_nat (length (filter (mentions k) files))
    <= count_of k (scan_for_usage keys files)
    <= Z.of_nat (length (filter (mentions k) files)) + 1
  /\ (existsb (marks keys k) files = false ->
      count_of k (scan_for_usage keys files)
      = Z.of_nat (length (filter (mentions k) files)))
  /\ count_of (str "k")
       (scan_for_usage [str "k"] [doc_of "a.tex" "\nocite{k}"; doc_of "b.tex" "see k"])
     <> count_of (str "k")
          (scan_for_usage [str "k"] [doc_of "b.tex" "see k"; doc_of "a.tex" "\nocite{k}"]).
Proof.
  apply mem_text_In in Hk.
  pose proof (count_bounds_fold keys k files 0 0 Hk ltac:(lia)) as H.
  cbn zeta in H. cbn [Nat.add] in H. destruct H as [Hb He].
  rewrite count_of_scan, Hk.
  split; [exact Hb|]. split; [now apply He|].
  vm_compute. discriminate.
Qed.

Lemma count_is_number_of_mentions_witness :
  Z.of_nat (length (filter (mentions (str "k"))
                      [doc_of "a.tex" "\nocite{k}"; doc_of "b.tex" "see k"]))
    <= count_of (str "k")
         (scan_for_usage [str "k"; str "j"]
            [doc_of "a.tex" "\nocite{k}"; doc_of "b.tex" "see k"])
    <= Z.of_nat (length (filter (mentions (str "k"))
                           [doc_of "a.tex" "\nocite{k}"; doc_of "b.tex" "see k"])) + 1
  /\ (existsb (marks [str "k"; str "j"] (str "k"))
        [doc_of "a.tex" "\nocite{k}"; doc_of "b.tex" "see k"] = false ->
      count_of (str "k")
        (scan_for_usage [str "k"; str "j"]
           [doc_of "a.tex" "\nocite{k}"; doc_of "b.tex" "see k"])
      = Z.of_nat (length (filter (mentions (str "k"))
                            [doc_of "a.tex" "\nocite{k}"; doc_of "b.tex" "see k"])))
  /\ count_of (str "k")
       (scan_for_usage [str "k"] [doc_of "a.tex" "\nocite{k}"; doc_of "b.tex" "see k"])
     <> count_of (str "k")
          (scan_for_usage [str "k"] [doc_of "b.tex" "see k"; doc_of "a.tex" "\nocite{k}"]).
Proof.
  apply (count_is_number_of_mentions [str "k"; str "j"]
           [doc_of "a.tex" "\nocite{k}"; doc_of "b.tex" "see k"] (str "k")).
  simpl; tauto.
Defined.

(* ================================================================== *)
(** ** Titles with white space collapsed *)
(* ================================================================== *)

Lemma lstrip_length (s : text) : (length (lstrip s) <= length s)%nat.
Proof.
  induction s as [|c s IH]; simpl; [lia|]. destruct (is_space c); simpl; lia.
Qed.

Lemma star_greedy_spaces (s : text) (g : caps) :
  star_greedy is_space s (fun s' => Some (s', g)) = Some (lstrip s, g).
Proof.
  induction s as [|c s IH]; simpl; [reflexivity|].
  destruct (is_space c); [now rewrite IH | reflexivity].
Qed.

Lemma match_at_spaces (s : text) :
  match_at false (Plus true CSpace) s =
  match s with
  | [] => None
  | c :: s' => if is_space c then Some (lstrip s', []) else None
  end.
Proof.
  unfold match_at, Plus. cbn [rmatch cls_match].
  destruct s as [|c s]; [reflexivity|].
  destruct (is_space c); [apply star_greedy_spaces | reflexivity].
Qed.

Lemma consumed_spaces (c : ascii) (s : text) :
  consumed (c :: s) (lstrip s) = c :: firstn (length s - length (lstrip s)) s.
Proof.
  unfold consumed. cbn [length]. pose proof (lstrip_length s).
  replace (S (length s) - length (lstrip s))%nat
    with (S (length s - length (lstrip s))) by lia.
  reflexivity.
Qed.

Lemma sub_skip_run ic r repl (s : text) :
  sub_skip ic r repl s (length s - length (lstrip s))
  = sub_skip ic r repl (lstrip s) 0.
Proof.
  induction s as [|c s IH]; [reflexivity|].
  cbn [lstrip]. destruct (is_space c).
  - pose proof (lstrip_length s). cbn [length].
    replace (S (length s) - length (lstrip s))%nat
      with (S (length s - length (lstrip s))) by lia.
    cbn [sub_skip]. exact IH.
  - now rewrite Nat.sub_diag.
Qed.

Lemma collapse_ws_run (s : text) : collapse_ws true s = collapse_ws false (lstrip s).
Proof.
  induction s as [|c s IH]; [reflexivity|].
  cbn [collapse_ws lstrip]. destruct (is_space c) eqn:E; [exact IH|].
  cbn [collapse_ws]. now rewrite E.
Qed.

Lemma sub_spaces_upto (n : nat) :
  forall s, (length s <= n)%nat ->
  sub_skip false (Plus true CSpace) (str " ") s 0 = collapse_ws false s.
Proof.
  induction n as [|n IH]; intros s Hlen.
  - destruct s; [|simpl in Hlen; lia].
    cbn [sub_skip]. now rewrite match_at_spaces.
  - destruct s as [|c s]; [cbn [sub_skip]; now rewrite match_at_spaces|].
    cbn [length] in Hlen. cbn [sub_skip collapse_ws]. rewrite match_at_spaces.
    destruct (is_space c).
    + rewrite consumed_spaces. cbn [length Nat.sub].
      rewrite Nat.sub_0_r, length_firstn.
      pose proof (lstrip_length s).
      rewrite Nat.min_l by lia.
      rewrite sub_skip_run, IH by lia.
      now rewrite collapse_ws_run.
    + f_equal. apply IH. lia.
Qed.

(** X19: the pattern substitution that normalises a title does what it is
    meant to: the title is stripped and lowered, and each run of white
    space in it becomes one space. *)
Theorem norm_title_collapses_white_space (title : text) :
  norm_title title = collapse_ws false (lower (strip title)).
Proof.
  unfold norm_title, re_sub. apply (sub_spaces_upto (length (lower (strip title)))).
  lia.
Qed.

(* ================================================================== *)
(** ** The records of the missing citations *)
(* ================================================================== *)

Lemma lstrip_spec (s : text) :
  exists l, s = l ++ lstrip s /\ forallb is_space l = true
            /\ (forall c t', lstrip s = c :: t' -> is_space c = false).
Proof.
  induction s as [|c s [l [Hs [Hl Hh]]]]; simpl.
  - exists []. repeat split. discriminate.
  - destruct (is_space c) eqn:E.
    + exists (c :: l). simpl. rewrite E, Hl. repeat split; [now f_equal | exact Hh].
    + exists []. repeat split. intros c' t' H. now injection H as <- _.
Qed.

Lemma forallb_rev {X : Type} (p : X -> bool) (l : list X) :
  forallb p (rev l) = forallb p l.
Proof.
  induction l as [|x l IH]; [reflexivity|].
  simpl. rewrite forallb_app, IH. simpl. rewrite andb_true_r. apply andb_comm.
Qed.

Lemma rstrip_spec (s : text) :
  exists r, s = rstrip s ++ r /\ forallb is_space r = true
            /\ (forall t' c, rstrip s = t' ++ [c] -> is_space c = false).
Proof.
  unfold rstrip. destruct (lstrip_spec (rev s)) as [l [Hs [Hl Hh]]].
  exists (rev l). split; [|split].
  - rewrite <- rev_app_distr, <- Hs. now rewrite rev_involutive.
  - now rewrite forallb_rev.
  - intros t' c H. apply (f_equal (@rev ascii)) in H.
    rewrite rev_involutive, rev_app_distr in H. simpl in H. eauto.
Qed.

Lemma strip_trimmed (line : text) : trimmed line (strip line).
Proof.
  unfold trimmed, strip.
  destruct (lstrip_spec line) as [l [Hl [Hls Hlh]]].
  destruct (rstrip_spec (lstrip line)) as [r [Hr [Hrs Hrh]]].
  exists l, r. split; [|split; [exact Hls|split; [exact Hrs|split; [|exact Hrh]]]].
  - rewrite Hl at 1. now rewrite Hr at 1.
  - intros c t' H. rewrite H in Hr. simpl in Hr. eauto.
Qed.

Lemma nth_error_combine_seq {X : Type} (l : list X) :
  forall (i n : nat) (x : X),
    nth_error l i = Some x -> In ((n + i)%nat, x) (combine (seq n (length l)) l).
Proof.
  induction l as [|y l IH]; intros i n x H; [destruct i; discriminate|].
  destruct i as [|i]; simpl in H |- *.
  - injection H as ->. left. f_equal. lia.
  - right. replace (n + S i)%nat with (S n + i)%nat by lia. now apply IH.
Qed.

Lemma nth_error_enumerate1 {X : Type} (l : list X) (i : nat) (x : X) :
  nth_error l i = Some x -> In (S i, x) (enumerate1 l).
Proof. intros H. apply (nth_error_combine_seq l i 1 x H). Qed.

Lemma map_const_repeat {X Y : Type} (y : Y) (l : list X) :
  map (fun _ => y) l = repeat y (length l).
Proof. induction l as [|x l IH]; simpl; [reflexivity | now f_equal]. Qed.

Lemma occurrences_as_line_records (p path : text) (lines : list text) :
  forall n : nat,
    flat_map
      (fun nline =>
         map (fun _ => (path, fst nline, strip (snd nline)))
             (filter (text_eqb p) (cited_keys (snd nline))))
      (combine (seq n (length lines)) lines)
    = line_records p path n lines.
Proof.
  induction lines as [|line lines IH]; intros n; [reflexivity|].
  cbn [length seq combine flat_map line_records fst snd].
  rewrite IH. f_equal. unfold count_text. apply map_const_repeat.
Qed.

Lemma occurrences_in_file_records (p : text) (f : doc) :
  occurrences_in p f = file_records p f.
Proof.
  unfold occurrences_in, file_records, occurrences_in_text, enumerate1.
  destruct (d_is_bib f); [reflexivity|].
  destruct (d_text f); [apply occurrences_as_line_records | reflexivity].
Qed.

Lemma match_at_cite_needs_bslash (c : ascii) (s : text) :
  not_bslash c = true -> match_at false cite_pat (c :: s) = None.
Proof.
  unfold not_bslash, match_at, cite_pat. rewrite rmatch_seq_cons. cbn [rmatch].
  unfold lit_match. rewrite Ascii.eqb_sym. intros H.
  apply negb_true_iff in H. now rewrite H.
Qed.

Lemma not_rbrace_cls (arg : text) :
  forallb not_rbrace arg = true ->
  forallb (cls_match (CNoneOf ["}"%char])) arg = true.
Proof.
  induction arg as [|c arg IH]; [reflexivity|]. cbn [forallb].
  intros H. apply andb_true_iff in H as [Hc Ha]. rewrite (IH Ha).
  unfold not_rbrace in Hc. unfold cls_match, mem_ascii. cbn [existsb].
  now rewrite orb_false_r, Hc.
Qed.

Lemma match_at_cite_command (name arg post : text) :
  In name cite_names -> forallb not_rbrace arg = true ->
  match_at false cite_pat (bslash :: name ++ "{"%char :: arg ++ "}"%char :: post)
  = Some (post, [(2%nat, arg); (1%nat, name)]).
Proof.
  intros Hn H. apply not_rbrace_cls in H.
  unfold cite_names in Hn. simpl in Hn.
  destruct Hn as [<- | [<- | [<- | [<- | [<- | [<- | []]]]]]];
    unfold match_at, cite_pat; cbn -[consumed];
    (erewrite star_greedy_all;
     [ | exact H | cbn -[consumed]; reflexivity | reflexivity]);
    rewrite (consumed_app arg ("}"%char :: post));
    match goal with
    | |- Some (_, [_; (_, consumed _ ?X)]) = Some (_, [_; (_, ?n)]) =>
        exact (f_equal (fun w => Some (post, [(2%nat, arg); (1%nat, w)]))
                 (consumed_app n X))
    end.
Qed.

Lemma finditer_skip_skip ic r (w post : text) :
  finditer_skip ic r (w ++ post) (length w) = finditer_skip ic r post 0.
Proof. induction w as [|c w IH]; [reflexivity | exact IH]. Qed.

(** The keys a line names where it has a citation command with no
    backslash before it: the parts of the argument, stripped, and then the
    keys of the rest of the line. *)
Lemma cited_keys_command (pre name arg post : text) :
  forallb not_bslash pre = true -> In name cite_names ->
  forallb not_rbrace arg = true ->
  cited_keys (pre ++ bslash :: name ++ "{"%char :: arg ++ "}"%char :: post)
  = map strip (split "," arg) ++ cited_keys post.
Proof.
  intros Hpre Hn Harg. unfold cited_keys, finditer.
  rewrite finditer_skip_no_match.
  - cbn [finditer_skip]. rewrite (match_at_cite_command name arg post Hn Harg).
    cbn [flat_map group_text snd group Nat.eqb]. f_equal. f_equal.
    replace (name ++ "{"%char :: arg ++ "}"%char :: post)
      with ((name ++ "{"%char :: arg ++ ["}"%char]) ++ post)
      by (rewrite <- !app_assoc; simpl; now rewrite <- app_assoc).
    change (bslash :: (name ++ "{"%char :: arg ++ ["}"%char]) ++ post)
      with ((bslash :: name ++ "{"%char :: arg ++ ["}"%char]) ++ post).
    rewrite consumed_app. cbn [length Nat.sub]. rewrite Nat.sub_0_r.
    apply finditer_skip_skip.
  - intros p1 p2 -> Hne. destruct p2 as [|c p2]; [contradiction|].
    apply match_at_cite_needs_bslash.
    rewrite forallb_app in Hpre. apply andb_true_iff in Hpre as [_ Hp2].
    simpl in Hp2. now apply andb_true_iff in Hp2 as [Hc _].
Qed.

(** C7: a key with an entry never gets a missing-citation record.  A key
    that is not empty and has no entry gets one record for each time a
    citation command of a scanned file names it, in the order of the files
    and of their lines; the record holds the path of the file, the number
    of the line counted from 1 and the line without the white space at its
    ends.  In particular each comma-separated part of the argument of a
    command [\cite{...}], [\citep{...}], ... on a line is such a key, once
    stripped.  The counts after a file are those of the [\nocite] marks
    and of the generic search, whatever the citation commands are. *)
Theorem missing_citations_recorded
  (keys : list text) (files : list doc) (p : text) :
  (In p keys -> Dict.get p (snd (scan_for_usage keys files)) = None)
  /\ (p <> [] -> ~ In p keys ->
      Dict.get p (snd (scan_for_usage keys files))
      = some_if_nonempty (flat_map (file_records p) files))
  /\ (forall f txt i line,
        In f files -> d_is_bib f = false -> d_text f = Some txt ->
        nth_error (splitlines txt) i = Some line ->
        In p (cited_keys line) -> p <> [] -> ~ In p keys ->
        exists l, Dict.get p (snd (scan_for_usage keys files)) = Some l
                  /\ In (d_path f, S i, strip line) l
                  /\ trimmed line (strip line))
  /\ (forall f txt i pre name arg post part,
        In f files -> d_is_bib f = false -> d_text f = Some txt ->
        nth_error (splitlines txt) i
        = Some (pre ++ bslash :: name ++ "{"%char :: arg ++ "}"%char :: post) ->
        forallb not_bslash pre = true -> In name cite_names ->
        forallb not_rbrace arg = true ->
        In part (split "," arg) -> p = strip part ->
        p <> [] -> ~ In p keys ->
        exists l t,
          Dict.get p (snd (scan_for_usage keys files)) = Some l
          /\ In (d_path f, S i, t) l
          /\ trimmed (pre ++ bslash :: name ++ "{"%char :: arg ++ "}"%char :: post) t
          /\ trimmed part p)
  /\ (forall (st : scan_state) f,
        fst (scan_file keys (Dict.of_keys re_escape keys) st f)
        = if d_is_bib f then fst st
          else match d_text f with
               | None => fst st
               | Some txt =>
                   generic_search (Dict.of_keys re_escape keys) txt
                                  (nocite_scan keys txt (fst st))
               end)
  /\ snd (scan_for_usage [str "a"] [doc_of "doc.tex" "\cite{x}"])
     = [(str "x", [(str "doc.tex", 1%nat, str "\cite{x}")])]
  /\ snd (scan_for_usage [str "known"]
            [doc_of "notes.tex" "intro
  see \cite{x, known} and \citep{y}  "; doc_of "b.tex" "\cite{x}"])
     = [(str "x", [(str "notes.tex", 2%nat, str "see \cite{x, known} and \citep{y}");
                   (str "b.tex", 1%nat, str "\cite{x}")]);
        (str "y", [(str "notes.tex", 2%nat, str "see \cite{x, known} and \citep{y}")])].
Proof.
  assert (H2 : p <> [] -> ~ In p keys ->
               Dict.get p (snd (scan_for_usage keys files))
               = some_if_nonempty (flat_map (file_records p) files)).
  { intros Hne Hnin. rewrite scan_for_usage_missing_get.
    destruct (recordable_cond keys p) as [_ Hc]. rewrite Hc by auto.
    f_equal. apply flat_map_ext. intros f. apply occurrences_in_file_records. }
  assert (H3 : forall f txt i line,
        In f files -> d_is_bib f = false -> d_text f = Some txt ->
        nth_error (splitlines txt) i = Some line ->
        In p (cited_keys line) -> p <> [] -> ~ In p keys ->
        exists l, Dict.get p (snd (scan_for_usage keys files)) = Some l
                  /\ In (d_path f, S i, strip line) l
                  /\ trimmed line (strip line)).
  { intros f txt i line Hf Hb Ht Hl Hp Hne Hnin.
    rewrite (H2 Hne Hnin).
    assert (Hin : In (d_path f, S i, strip line) (flat_map (file_records p) files)).
    { apply in_flat_map. exists f. split; [assumption|].
      rewrite <- occurrences_in_file_records.
      unfold occurrences_in. rewrite Hb, Ht. unfold occurrences_in_text.
      apply in_flat_map. exists (S i, line).
      split; [now apply nth_error_enumerate1|]. cbn [fst snd].
      apply (in_map (fun _ : text => (d_path f, S i, strip line)) _ p).
      apply filter_In. split; [assumption | apply text_eqb_refl]. }
    destruct (flat_map (file_records p) files) as [|o l]; [destruct Hin|].
    eexists. split; [reflexivity|]. split; [exact Hin | apply strip_trimmed]. }
  split; [|split; [exact H2|split; [exact H3|split; [|split; [|split]]]]].
  - intros Hin. rewrite scan_for_usage_missing_get.
    apply mem_text_In in Hin. rewrite Hin. now rewrite andb_false_r.
  - intros f txt i pre name arg post part Hf Hb Ht Hl Hpre Hn Harg Hpart -> Hne Hnin.
    destruct (H3 f txt i _ Hf Hb Ht Hl) as [l [Hg [Hin Htr]]];
      [|exact Hne | exact Hnin|].
    + rewrite (cited_keys_command pre name arg post Hpre Hn Harg).
      apply in_or_app. left. now apply in_map.
    + exists l, (strip (pre ++ bslash :: name ++ "{"%char :: arg ++ "}"%char :: post)).
      split; [exact Hg|]. split; [exact Hin|]. split; [exact Htr|].
      apply strip_trimmed.
  - intros st f. unfold scan_file.
    destruct (d_is_bib f); [reflexivity|]. now destruct (d_text f).
  - vm_compute. reflexivity.
  - vm_compute. reflexivity.
Qed.
